(** * Steam Market Observer

    A shallow embedding of [src/index.js]: the paginated fetch loop
    ([fetchMarketData]), the batch upserter ([pushToDB]), the cycle
    scheduler ([updateMarketListingsData], [start]) and the watermark file
    ([readLastUpdateTime], [writeLastUpdateTime]).

    JavaScript values are an inductive type whose objects are finite maps
    from property names to values.  The asynchronous methods are functions
    in a state-and-exception monad over the process state [Sys]; what the
    outside world answers (the Steam API, the document store, the file
    system, how long a suspension lasts) is read from a [World]. *)

From stdpp Require Import gmap strings list fin_maps sorting.

#[local] Set Warnings "-register-all".
#[local] Open Scope Z_scope.

(** ** Constants of [index.js] *)

Definition REQUEST_INTERVAL : Z := 10000.
Definition REQUEST_COOL_DOWN : Z := 30000.
Definition PAGE_SIZE : Z := 100.

Definition ITEM_PROPERTIES : list string :=
  ["appid"; "name"; "icon_url"; "sell_listings"; "classid"; "instanceid"].

(** ** JavaScript values *)

(** What [JSON.parse] can produce, plus [undefined]. *)
Inductive value :=
| VUndef
| VNull
| VBool (b : bool)
| VNum (n : Z)
| VStr (s : string)
| VArr (l : list value)
| VObj (o : gmap string value).

(** A document: the [$set] argument of an update and a stored record. *)
Abbreviation doc := (gmap string value).

Fixpoint list_eqb {A} (eqb : A → A → bool) (l1 l2 : list A) : bool :=
  match l1, l2 with
  | [], [] => true
  | x :: l1', y :: l2' => eqb x y && list_eqb eqb l1' l2'
  | _, _ => false
  end.

Definition field_eqb {A} (eqb : A → A → bool) (o2 : gmap string A)
    (k : string) (x : A) (acc : bool) : bool :=
  acc && match o2 !! k with Some y => eqb x y | None => false end.

(** Structural equality of values, used by the store to match the
    [hash_name] of a filter against the one of a stored document. *)
Fixpoint value_eqb (v1 v2 : value) : bool :=
  match v1, v2 with
  | VUndef, VUndef => true
  | VNull, VNull => true
  | VBool a, VBool b => bool_decide (a = b)
  | VNum a, VNum b => bool_decide (a = b)
  | VStr a, VStr b => bool_decide (a = b)
  | VArr l1, VArr l2 => list_eqb value_eqb l1 l2
  | VObj o1, VObj o2 =>
      bool_decide (dom o1 = dom o2) && map_fold (field_eqb value_eqb o2) true o1
  | _, _ => false
  end.

Fixpoint value_size (v : value) : nat :=
  match v with
  | VArr l => S (foldr (λ x n, value_size x + n)%nat 0%nat l)
  | VObj o => S (map_fold (λ _ x n, value_size x + n)%nat 0%nat o)
  | _ => 1
  end.

(** [v !== undefined] *)
Definition is_defined (v : value) : bool :=
  match v with VUndef => false | _ => true end.

(** ** Errors and outcomes *)

Inductive error :=
| TypeError (key : string)        (* a property read on undefined or null *)
| StatusError (pageIndex status : Z)
    (* `Unable to fetch page #${pageIndex}: response code was ${status}` *)
| EmptyResponse                   (* 'Response is empty' *)
| PageUnsuccessful (pageIndex : Z) (* `Unable to fetch page #${pageIndex}` *)
| NetworkError                    (* fetch() rejected *)
| JsonError                       (* response.json() rejected *)
| StoreError                      (* bulk.execute() rejected by the store *)
| NoOperations
    (* bulk.execute() on a bulk without operation, which the driver
       rejects: 'Invalid Operation, no operations specified' *)
| ConnectError                    (* MongoClient.connect() rejected *)
| FileError                       (* fs.writeFileSync threw *)
| InvalidTime.
    (* new Date(t).toISOString() on a time that is no date: the
       RangeError 'Invalid time value' *)

(** The result of running a piece of the program: it returns, it throws,
    or the bound on loop iterations given to the model ran out. *)
Inductive outcome (A : Type) :=
| Done (a : A)
| Throw (e : error)
| Diverge.
Arguments Done {A} a.
Arguments Throw {A} e.
Arguments Diverge {A}.

#[global] Instance outcome_ret : MRet outcome := λ A a, Done a.

#[global] Instance outcome_bind : MBind outcome := λ A B f r,
  match r with
  | Done a => f a
  | Throw e => Throw e
  | Diverge => Diverge
  end.

(** [base[key]], for the keys this program reads ("sell_price",
    "hash_name", "asset_description" and the names of [ITEM_PROPERTIES]):
    none of them is an index, "length" or a prototype member, so a read on
    a number, string, boolean or array gives undefined.  A read on
    undefined or null throws. *)
Definition get_prop (base : value) (key : string) : outcome value :=
  match base with
  | VUndef | VNull => Throw (TypeError key)
  | VObj o => Done (default VUndef (o !! key))
  | _ => Done VUndef
  end.

(** [array.includes(x)] on an array of strings *)
Definition includes (l : list string) (x : string) : bool :=
  bool_decide (x ∈ l).

(** ** Configuration, pages, requests *)

(** The parts of [config.json] that the methods below read: the
    interval in ms, the app ids, the whitelist. *)
Record Config := {
  updateInterval : Z;
  apps : list Z;
  properties : list string
}.

Record Request := {
  req_appid : Z;
  req_start : Z;
  req_count : Z
}.

(** A parsed body that is a non-empty object: [success] is the truthiness
    of [page.success]; [total_count] is taken to be an integer and
    [results] an array, whose elements may be any value. *)
Record Page := {
  success : bool;
  total_count : Z;
  results : list value
}.

Inductive Body :=
| BodyInvalid            (* response.json() rejects *)
| BodyEmpty              (* falsy, or an object without keys *)
| BodyPage (p : Page).

Record Response := {
  status : Z;
  body : Body
}.

Inductive Reply :=
| Unreachable            (* the promise of fetch() rejects *)
| Replied (r : Response).

(** ** [pushToDB]: the operations of the batch *)

(** [item[prop] !== undefined ? item[prop] : item['asset_description'][prop]] *)
Definition resolve (item : value) (prop : string) : outcome value :=
  top ← get_prop item prop;
  if is_defined top then Done top
  else description ← get_prop item "asset_description";
       get_prop description prop.

(** [for (let prop of ITEM_PROPERTIES) if (config.properties.includes(prop)) toSet[prop] = ...] *)
Fixpoint set_props (cfg : Config) (item : value) (props : list string)
    (toSet : doc) : outcome doc :=
  match props with
  | [] => Done toSet
  | prop :: rest =>
      if includes (properties cfg) prop
      then v ← resolve item prop;
           set_props cfg item rest (<[prop := v]> toSet)
      else set_props cfg item rest toSet
  end.

(** The object [toSet] built for one item. *)
Definition build_toSet (cfg : Config) (item : value) : outcome doc :=
  price ← get_prop item "sell_price";
  set_props cfg item ITEM_PROPERTIES {[ "sell_price" := price ]}.

(** [bulk.find({hash_name: h}).upsert().updateOne({$set: toSet})] *)
Record UpsertOp := {
  op_hash_name : value;
  op_set : doc
}.

Definition build_op (cfg : Config) (item : value) : outcome UpsertOp :=
  toSet ← build_toSet cfg item;
  h ← get_prop item "hash_name";
  Done {| op_hash_name := h; op_set := toSet |}.

(** [for (let item of items) { ... }]: the batch, or the first exception. *)
Fixpoint build_bulk (cfg : Config) (items : list value) : outcome (list UpsertOp) :=
  match items with
  | [] => Done []
  | item :: rest =>
      op ← build_op cfg item;
      ops ← build_bulk cfg rest;
      Done (op :: ops)
  end.

(** ** The document store *)

(** The collection is the list of its documents.  An upsert changes the
    first document whose [hash_name] equals the filter's, the fields of
    [$set] replacing the document's; without a match it adds the document
    made of the filter and of [$set]. *)
Definition matches (h : value) (d : doc) : bool :=
  match d !! "hash_name" with
  | Some x => value_eqb x h
  | None => false
  end.

Fixpoint upsert (h : value) (toSet : doc) (c : list doc) : list doc :=
  match c with
  | [] => [toSet ∪ {[ "hash_name" := h ]}]
  | d :: c' =>
      if matches h d then (toSet ∪ d) :: c'
      else d :: upsert h toSet c'
  end.

Definition apply_op (c : list doc) (op : UpsertOp) : list doc :=
  upsert (op_hash_name op) (op_set op) c.

Definition apply_bulk (c : list doc) (ops : list UpsertOp) : list doc :=
  foldl apply_op c ops.


(** ** The process and its environment *)

Inductive level := Info | Warn | Error.

Inductive message :=
| StartingPriceUpdate
| PriceUpdateComplete
| ErrorDuringPriceUpdate
| ErrorOnStartup
| ErrorText (e : error)                    (* String(err) *)
| FetchingPrices (appID : Z)
| TooManyRequests
| RetryingIn (ms : Z)
| FetchedItems (fetched total pageIndex : Z)  (* the percentage is left out *)
| FetchedAll (appID : Z)
| ReadingLastUpdate
| NoUpdateInformation
| LastUpdatedOn (t : Z)
| WritingLastUpdate
| UnableToWrite
| ConnectingToDatabase
| ConnectedToDatabase.

(** What the process does that can be seen from outside, in order. *)
Inductive event :=
| Logged (lvl : level) (m : message)
| Requested (r : Request)                 (* queue.resolve(() => fetch(url)) *)
| Slept (ms : Z)                          (* setTimeout(resolve, ms), awaited *)
| Executed (ops : list UpsertOp) (ok : bool)   (* bulk.execute() *)
| WroteFile (t : Z) (ok : bool)           (* fs.writeFileSync(LAST_UPDATE_INFO_FILE, String(t)) *)
| Armed (delay : Z).                      (* setTimeout(updateMarketListingsData, delay) *)

(** The answers of the outside world.  Each is indexed by the number of
    suspension points ([await]) the process has passed when it asks. *)
Record World := {
  server : nat → Request → Reply;    (* what Steam answers to a request *)
  store_accepts : nat → bool;        (* whether bulk.execute() resolves *)
  fs_writes : nat → bool;            (* whether writeFileSync succeeds *)
  db_connects : bool;                (* whether MongoClient.connect resolves *)
  elapse : nat → N                   (* time a suspension takes beyond its minimum *)
}.

(** What [parseInt(content, 10)] makes of the content of
    last-update.txt: an integer, or NaN when the content does not start
    with one.  The text [String(t)] that the process writes for an
    integer [t] is read back as [t]. *)
Inductive Parsed :=
| Number (t : Z)
| NotANumber.

Record Sys := {
  clock : Z;                         (* Date.now() *)
  awaits : nat;                      (* suspension points passed so far *)
  collection : list doc;             (* the documents of the store *)
  lastUpdate : Z;                    (* this.lastUpdate *)
  update_file : option Parsed;       (* last-update.txt, when it is there *)
  trace : list event                 (* oldest first *)
}.

(** The watermark in the file: 0 when there is no file. *)
Definition file_watermark (f : option Parsed) : Z :=
  match f with
  | Some (Number t) => t
  | _ => 0
  end.

Definition set_clock (t : Z) (n : nat) (s : Sys) : Sys :=
  {| clock := t; awaits := n; collection := collection s;
     lastUpdate := lastUpdate s; update_file := update_file s; trace := trace s |}.

Definition set_collection (c : list doc) (s : Sys) : Sys :=
  {| clock := clock s; awaits := awaits s; collection := c;
     lastUpdate := lastUpdate s; update_file := update_file s; trace := trace s |}.

Definition set_lastUpdate (t : Z) (s : Sys) : Sys :=
  {| clock := clock s; awaits := awaits s; collection := collection s;
     lastUpdate := t; update_file := update_file s; trace := trace s |}.

Definition set_update_file (f : option Parsed) (s : Sys) : Sys :=
  {| clock := clock s; awaits := awaits s; collection := collection s;
     lastUpdate := lastUpdate s; update_file := f; trace := trace s |}.

Definition add_event (ev : event) (s : Sys) : Sys :=
  {| clock := clock s; awaits := awaits s; collection := collection s;
     lastUpdate := lastUpdate s; update_file := update_file s;
     trace := trace s ++ [ev] |}.

(** The monad of the asynchronous methods: the state is kept when an
    exception is thrown, nothing is rolled back. *)
Definition M (A : Type) : Type := Sys → outcome A * Sys.

#[global] Instance M_ret : MRet M := λ A a s, (Done a, s).

#[global] Instance M_bind : MBind M := λ A B f m s,
  match m s with
  | (Done a, s') => f a s'
  | (Throw e, s') => (Throw e, s')
  | (Diverge, s') => (Diverge, s')
  end.

Definition throw {A} (e : error) : M A := λ s, (Throw e, s).

(** Reading and changing the state. *)
Definition ask {A} (f : Sys → A) : M A := λ s, (Done (f s), s).

Definition modify (f : Sys → Sys) : M unit := λ s, (Done tt, f s).

(** A synchronous computation inside a method. *)
Definition lift {A} (r : outcome A) : M A := λ s, (r, s).

Definition emit (ev : event) : M unit := modify (add_event ev).

Definition log (lvl : level) (m : message) : M unit := emit (Logged lvl m).

(** [try { body } catch (err) { handler(err) }] *)
Definition try_catch {A} (body : M A) (handler : error → M A) : M A := λ s,
  match body s with
  | (Throw e, s') => handler e s'
  | r => r
  end.

(** The state of one identifier's loop: the variables [pageIndex],
    [total] and [fetched] of [fetchMarketData]. *)
Record Progress := {
  pageIndex : Z;
  total : Z;
  fetched : Z
}.

Definition init_progress : Progress :=
  {| pageIndex := 1; total := 1; fetched := 0 |}.

(** [`${API_URL}&appid=${appID}&start=${fetched}&count=${PAGE_SIZE}`] *)
Definition page_request (appID : Z) (p : Progress) : Request :=
  {| req_appid := appID; req_start := fetched p; req_count := PAGE_SIZE |}.

(** The loop variables after a page has been stored. *)
Definition advance (p : Progress) (page : Page) : Progress :=
  {| pageIndex := pageIndex p + 1;
     total := total_count page;
     fetched := fetched p + Z.of_nat (length (results page)) |}.

Section Observer.
Context (w : World) (cfg : Config).

(** A suspension point: the process resumes after [min] ms or later. *)
Definition tick (min : Z) (s : Sys) : Sys :=
  set_clock (clock s + min + Z.of_N (elapse w (awaits s))) (S (awaits s)) s.

Definition await (min : Z) : M unit := modify (tick min).

(** [await this.queue.resolve(() => fetch(url))]: the request is handed to
    the queue; how long the queue holds it back and how long the answer
    takes is part of the suspension. *)
Definition fetch (req : Request) : M Response :=
  reply ← ask (λ s, server w (awaits s) req);
  emit (Requested req);;
  await 0;;
  match reply with
  | Unreachable => throw NetworkError
  | Replied r => mret r
  end.

(** [await response.json()] *)
Definition json (r : Response) : M Body :=
  await 0;;
  match body r with
  | BodyInvalid => throw JsonError
  | b => mret b
  end.

(** [await new Promise(resolve => setTimeout(resolve, ms))] *)
Definition sleep (ms : Z) : M unit :=
  await ms;; emit (Slept ms).

(** Whether [bulk.execute()] resolves: the driver rejects a bulk to
    which no operation was added, whatever the store; another batch is
    for the store to accept. *)
Definition accepted (ops : list UpsertOp) (s : Sys) : bool :=
  match ops with
  | [] => false
  | _ => store_accepts w (awaits s)
  end.

(** [bulk.execute()], awaited by the caller of [pushToDB].  A batch the
    store rejects is taken to change no document. *)
Definition execute (ops : list UpsertOp) : M unit :=
  ok ← ask (accepted ops);
  await 0;;
  emit (Executed ops ok);;
  if ok : bool
  then modify (λ s, set_collection (apply_bulk (collection s) ops) s)
  else throw (match ops with [] => NoOperations | _ => StoreError end).

Definition pushToDB (items : list value) : M unit :=
  ops ← lift (build_bulk cfg items);
  execute ops.

(** One pass through the body of the [do ... while] loop. *)
Definition iteration (appID : Z) (p : Progress) : M Progress :=
  response ← fetch (page_request appID p);
  if bool_decide (status response = 429) then
    log Warn TooManyRequests;;
    log Warn (RetryingIn REQUEST_COOL_DOWN);;
    sleep REQUEST_COOL_DOWN;;
    mret p
  else if bool_decide (status response ≠ 200) then
    throw (StatusError (pageIndex p) (status response))
  else
    b ← json response;
    match b with
    | BodyPage page =>
        if negb (success page) then throw (PageUnsuccessful (pageIndex p))
        else
          let total' :=
            if bool_decide (total p ≠ total_count page)
            then total_count page else total p in
          pushToDB (results page);;
          let fetched' := fetched p + Z.of_nat (length (results page)) in
          log Info (FetchedItems fetched' total' (pageIndex p));;
          mret {| pageIndex := pageIndex p + 1;
                  total := total';
                  fetched := fetched' |}
    | _ => throw EmptyResponse
    end.

(** [do { ... } while (fetched < total)]: both [continue] and the end of
    the body lead to the test.  [fuel] bounds the number of passes. *)
Fixpoint do_while (fuel : nat) (appID : Z) (p : Progress) : M unit :=
  match fuel with
  | O => lift Diverge
  | S fuel' =>
      p' ← iteration appID p;
      if bool_decide (fetched p' < total p')
      then do_while fuel' appID p'
      else mret tt
  end.

(** The body of [for (let appID of this.appIDs)]. *)
Definition fetch_app (fuel : nat) (appID : Z) : M unit :=
  log Info (FetchingPrices appID);;
  do_while fuel appID init_progress;;
  log Info (FetchedAll appID).

Fixpoint for_apps (fuel : nat) (ids : list Z) : M unit :=
  match ids with
  | [] => mret tt
  | appID :: rest => fetch_app fuel appID;; for_apps fuel rest
  end.

Definition fetchMarketData (fuel : nat) : M unit :=
  for_apps fuel (apps cfg).

(** [fs.writeFileSync(LAST_UPDATE_INFO_FILE, String(t), 'utf-8')] *)
Definition writeFileSync (t : Z) : M unit :=
  ok ← ask (λ s, fs_writes w (awaits s));
  emit (WroteFile t ok);;
  if ok : bool then modify (set_update_file (Some (Number t)))
  else throw FileError.

Definition writeLastUpdateTime : M unit :=
  log Info WritingLastUpdate;;
  try_catch
    (t ← ask lastUpdate; writeFileSync t)
    (λ err, log Error UnableToWrite;; log Error (ErrorText err)).

(** [new Date(t)] is a date, so that [toISOString()] returns: a time
    value is at most 8.64e15 ms away from the epoch. *)
Definition valid_time (t : Z) : bool :=
  bool_decide (-8640000000000000 ≤ t ≤ 8640000000000000).

(** [fs.existsSync] and [fs.readFileSync] are taken not to throw: a
    file that is there can be read.  With NaN read from the file,
    [this.lastUpdate] is NaN, which is not 0 and no date: line 283
    throws, and [start] ends without reading the field again (the model
    leaves [lastUpdate] as it was). *)
Definition readLastUpdateTime : M unit :=
  log Info ReadingLastUpdate;;
  file ← ask update_file;
  match file with
  | Some (Number t) => modify (set_lastUpdate t)
  | Some NotANumber => throw InvalidTime
  | None => writeFileSync 0;; modify (set_lastUpdate 0)
  end;;
  t ← ask lastUpdate;
  if bool_decide (t = 0) then log Info NoUpdateInformation
  else if valid_time t then log Info (LastUpdatedOn t)
  else throw InvalidTime.

Definition connectToDB : M unit :=
  log Info ConnectingToDatabase;;
  await 0;;
  if db_connects w then log Info ConnectedToDatabase
  else throw ConnectError.

(** [this.lastUpdate = Date.now()] *)
Definition stamp : M unit :=
  now ← ask clock; modify (set_lastUpdate now).

(** [setTimeout(this.updateMarketListingsData.bind(this), delay)] *)
Definition arm (delay : Z) : M unit := emit (Armed delay).

Definition updateMarketListingsData (fuel : nat) : M unit :=
  log Info StartingPriceUpdate;;
  try_catch
    (fetchMarketData fuel;;
     stamp;;
     writeLastUpdateTime;;
     log Info PriceUpdateComplete)
    (λ err,
     log Error ErrorDuringPriceUpdate;;
     log Error (ErrorText err));;
  arm (updateInterval cfg).

(** Lines 94 to 99 of [start]. *)
Definition first_run (fuel : nat) : M unit :=
  now ← ask clock;
  watermark ← ask lastUpdate;
  let delta := now - watermark in
  if bool_decide (delta >= updateInterval cfg)
  then updateMarketListingsData fuel
  else arm (updateInterval cfg - delta).

(** [start], from the point where the logger and the configuration are
    there.  (The handler also closes the connection, if there is one.) *)
Definition start (fuel : nat) : M unit :=
  try_catch
    (readLastUpdateTime;;
     connectToDB;;
     first_run fuel)
    (λ err,
     log Error ErrorOnStartup;;
     log Error (ErrorText err)).

(** The states in which the loop of one identifier, entered in state
    [s0], stands at the head of its body: at entry, and after each pass
    whose test held. *)
Inductive loop_head (appID : Z) (s0 : Sys) : Progress → Sys → Prop :=
| head_entry : loop_head appID s0 init_progress s0
| head_again p s p' s' :
    loop_head appID s0 p s →
    iteration appID p s = (Done p', s') →
    fetched p' < total p' →
    loop_head appID s0 p' s'.

(** *** The states that the passes and cycles lead to *)

(** The state once the request of a page has been answered. *)
Definition requested (req : Request) (s : Sys) : Sys :=
  tick 0 (add_event (Requested req) s).

(** The state after a pass that met status 429. *)
Definition throttled (req : Request) (s : Sys) : Sys :=
  add_event (Slept REQUEST_COOL_DOWN)
    (tick REQUEST_COOL_DOWN
       (add_event (Logged Warn (RetryingIn REQUEST_COOL_DOWN))
          (add_event (Logged Warn TooManyRequests) (requested req s)))).

(** The state after a pass that stored the batch [ops] of a page. *)
Definition stored (appID : Z) (p : Progress) (page : Page)
    (ops : list UpsertOp) (s : Sys) : Sys :=
  let s1 := tick 0 (tick 0 (requested (page_request appID p) s)) in
  let s2 := add_event (Executed ops true) s1 in
  add_event
    (Logged Info (FetchedItems (fetched (advance p page)) (total_count page)
                    (pageIndex p)))
    (set_collection (apply_bulk (collection s) ops) s2).

(** The state after [bulk.execute()] has settled. *)
Definition executed (ops : list UpsertOp) (s : Sys) : Sys :=
  let ok := accepted ops s in
  let s1 := add_event (Executed ops ok) (tick 0 s) in
  if ok then set_collection (apply_bulk (collection s) ops) s1 else s1.

(** The state in which a cycle starts its pass over the identifiers. *)
Definition cycle_started (s : Sys) : Sys :=
  add_event (Logged Info StartingPriceUpdate) s.

(** The state a cycle ends in when its pass has thrown [e] in state [s2]. *)
Definition cycle_failed (e : error) (s2 : Sys) : Sys :=
  add_event (Armed (updateInterval cfg))
    (add_event (Logged Error (ErrorText e))
       (add_event (Logged Error ErrorDuringPriceUpdate) s2)).

(** The state a cycle ends in when its pass has returned in state [s2]. *)
Definition cycle_completed (s2 : Sys) : Sys :=
  let now := clock s2 in
  let ok := fs_writes w (awaits s2) in
  let s3 := add_event (WroteFile now ok)
              (add_event (Logged Info WritingLastUpdate)
                 (set_lastUpdate now s2)) in
  let s4 :=
    if ok then set_update_file (Some (Number now)) s3
    else add_event (Logged Error (ErrorText FileError))
           (add_event (Logged Error UnableToWrite) s3) in
  add_event (Armed (updateInterval cfg))
    (add_event (Logged Info PriceUpdateComplete) s4).

End Observer.

(** ** How the state may move *)

(** Every document of [c] is still in [c'], at its place and under its
    key. *)
Definition persists (c c' : list doc) : Prop :=
  ∀ i d, c !! i = Some d →
    ∃ d', c' !! i = Some d' ∧ d' !! "hash_name" = d !! "hash_name".

(** From [s] the process can only get to states [s'] that keep the
    watermark, keep every stored document, extend the trace and do not go
    back in time.  Only [updateMarketListingsData] and
    [readLastUpdateTime] touch the watermark. *)
Record evolves (s s' : Sys) : Prop := {
  evolves_lastUpdate : lastUpdate s' = lastUpdate s;
  evolves_file : update_file s' = update_file s;
  evolves_docs : persists (collection s) (collection s');
  evolves_trace : trace s `prefix_of` trace s';
  evolves_awaits : (awaits s ≤ awaits s')%nat;
  evolves_clock : clock s ≤ clock s'
}.

(** A method is steady when every run of it, whatever its outcome, only
    moves the state forward. *)
Definition steady {A} (m : M A) : Prop := ∀ s, evolves s (m s).2.

(** ** Readings of the trace *)

(** The requests sent, oldest first. *)
Definition requests (t : list event) : list Request :=
  omap (λ ev, match ev with Requested r => Some r | _ => None end) t.

(** The values of [fetched] logged after each stored page, oldest first. *)
Definition fetched_counts (t : list event) : list Z :=
  omap (λ ev,
    match ev with
    | Logged Info (FetchedItems n _ _) => Some n
    | _ => None
    end) t.

(** The batches handed to the store, oldest first. *)
Definition batches (t : list event) : list (list UpsertOp) :=
  omap (λ ev, match ev with Executed ops _ => Some ops | _ => None end) t.

(** ** Worlds, states and items used as examples *)

(** A world in which the store, the file system and the connection work
    and no suspension takes longer than it must. *)
Definition calm_world (srv : nat → Request → Reply) : World :=
  {| server := srv;
     store_accepts := λ _, true;
     fs_writes := λ _, true;
     db_connects := true;
     elapse := λ _, 0%N |}.

(** The process right after its start at time [now], nothing stored. *)
Definition fresh (now : Z) : Sys :=
  {| clock := now; awaits := 0; collection := []; lastUpdate := 0;
     update_file := None; trace := [] |}.

(** The [config.json] of the README. *)
Definition readme_config : Config :=
  {| updateInterval := 1800000;
     apps := [578080];
     properties :=
       ["appid"; "name"; "icon_url"; "sell_listings"; "classid"; "instanceid"] |}.

(** An item as the search endpoint returns it. *)
Definition ak47 : value :=
  VObj {[ "name" := VStr "AK-47 | Redline (Field-Tested)";
          "hash_name" := VStr "AK-47 | Redline (Field-Tested)";
          "sell_listings" := VNum 1520;
          "sell_price" := VNum 1499;
          "asset_description" :=
            VObj {[ "appid" := VNum 730;
                    "classid" := VStr "310777161";
                    "instanceid" := VStr "188530139";
                    "icon_url" := VStr "fWFc82js0fmoRAP" ]} ]}.

Definition page_reply (tc : Z) (items : list value) : Reply :=
  Replied {| status := 200;
             body := BodyPage {| success := true; total_count := tc;
                                 results := items |} |}.

Definition too_many_requests : Reply :=
  Replied {| status := 429; body := BodyEmpty |}.

(** ** The rate limiter *)

Module RateLimiter.

(** Modelled from the spec: the queue [this.queue] comes from the
    package [node-throttled-queue], whose code is not among the sources;
    [index.js] only builds it with [REQUEST_INTERVAL] and sends every
    request through [queue.resolve].  The limiter below is the one the
    spec describes (4.1 and the design notes): a FIFO of pending calls,
    drained by a timer, a dispatch starting only when the interval has
    passed since the start of the one before. *)
Record Limiter := {
  pending : list nat;            (* calls submitted and not yet started, oldest first *)
  next_free : option Z;          (* when the next dispatch may start; None before the first *)
  started : list (nat * Z)       (* the dispatches so far: call and start time, oldest first *)
}.

Definition idle : Limiter :=
  {| pending := []; next_free := None; started := [] |}.

Definition may_start (now : Z) (q : Limiter) : bool :=
  match next_free q with
  | None => true
  | Some t => bool_decide (t ≤ now)
  end.

(** Modelled from the spec: the drain of the queue.  It starts the
    oldest pending call at [now], when one may start. *)
Definition drain (interval now : Z) (q : Limiter) : Limiter :=
  match pending q with
  | [] => q
  | call :: rest =>
      if may_start now q
      then {| pending := rest;
              next_free := Some (now + interval);
              started := started q ++ [(call, now)] |}
      else q
  end.

(** Modelled from the spec: [submit].  The call joins the back of the
    queue. *)
Definition enqueue (call : nat) (q : Limiter) : Limiter :=
  {| pending := pending q ++ [call];
     next_free := next_free q;
     started := started q |}.

(** Modelled from the spec: what happens to the limiter.  A call is
    submitted at some time, or the timer fires at some time. *)
Inductive input :=
| Submit (call : nat) (now : Z)
| Timer (now : Z).

(** Modelled from the spec: a submission is followed by a drain, so a
    call submitted to an idle limiter starts at once. *)
Definition step (interval : Z) (q : Limiter) (i : input) : Limiter :=
  match i with
  | Submit call now => drain interval now (enqueue call q)
  | Timer now => drain interval now q
  end.

Definition run (interval : Z) (inputs : list input) : Limiter :=
  foldl (step interval) idle inputs.

(** The calls submitted, in the order of submission. *)
Definition submitted (inputs : list input) : list nat :=
  omap (λ i, match i with Submit call _ => Some call | Timer _ => None end)
       inputs.

(** Consecutive dispatches start at least [interval] apart. *)
Definition spaced (interval : Z) (log : list (nat * Z)) : Prop :=
  ∀ i a b, log !! i = Some a → log !! S i = Some b → a.2 + interval ≤ b.2.

(** What every reachable limiter satisfies. *)
Record sound (interval : Z) (q : Limiter) : Prop := {
  sound_spaced : spaced interval (started q);
  sound_next : ∀ a, last (started q) = Some a →
                    next_free q = Some (a.2 + interval)
}.

End RateLimiter.

(** ** Further vocabulary: the store *)

(** The keys of the documents, in the order of the collection. *)
Definition keys (c : list doc) : list (option value) :=
  (λ d : doc, d !! "hash_name") <$> c.

(** No key is held by two documents. *)
Definition one_per_key (c : list doc) : Prop :=
  ∀ i j h, keys c !! i = Some (Some h) → keys c !! j = Some (Some h) → i = j.

(** [d], at place [i], is the document that an upsert with key [h]
    changes: the first one whose key is [h]. *)
Definition first_match (h : value) (c : list doc) (i : nat) (d : doc) : Prop :=
  c !! i = Some d ∧
  matches h d = true ∧
  ∀ j d', (j < i)%nat → c !! j = Some d' → matches h d' = false.

(** An upsert with key [h] and fields [toSet] would change nothing. *)
Definition absorbed (h : value) (toSet : doc) (c : list doc) : Prop :=
  ∃ i d, first_match h c i d ∧ toSet ∪ d = d.

(** The fields that [pushToDB] sets under a configuration. *)
Definition written (cfg : Config) (f : string) : Prop :=
  f = "sell_price" ∨ (f ∈ ITEM_PROPERTIES ∧ f ∈ properties cfg).

(** A document as the upserter leaves it in a store of its own: the key,
    the price and the whitelisted properties, nothing else. *)
Definition shaped (cfg : Config) (d : doc) : Prop :=
  ∀ f, f ∈ dom d ↔ f = "hash_name" ∨ written cfg f.

(** Every document of [c] is still in [c'], at its place, and the fields
    that [pushToDB] does not set are as they were. *)
Definition keeps_foreign (cfg : Config) (c c' : list doc) : Prop :=
  ∀ i d, c !! i = Some d →
    ∃ d', c' !! i = Some d' ∧ ∀ f, ¬ written cfg f → d' !! f = d !! f.



(** ** Further vocabulary: runs *)

(** Every run of [m], whatever its outcome, takes a state to one that
    [R] relates to it. *)
Definition carries {A} (R : Sys → Sys → Prop) (m : M A) : Prop :=
  ∀ s, R s (m s).2.

(** What is to be expected of an event under a configuration: requests
    are for configured identifiers and ask for [PAGE_SIZE] items, sleeps
    last [REQUEST_COOL_DOWN], batches are built from pages. *)
Definition expected (cfg : Config) (ev : event) : Prop :=
  match ev with
  | Requested r => req_appid r ∈ apps cfg ∧ req_count r = PAGE_SIZE
  | Slept ms => ms = REQUEST_COOL_DOWN
  | Executed ops _ => ∃ items, build_bulk cfg items = Done ops
  | _ => True
  end.

(** The delays of the timers armed, oldest first. *)
Definition timers (t : list event) : list Z :=
  omap (λ ev, match ev with Armed d => Some d | _ => None end) t.

(** The trace of [s'] is that of [s] followed by events that all satisfy
    [P]. *)
Definition extends_by (P : event → Prop) (s s' : Sys) : Prop :=
  ∃ t, trace s' = trace s ++ t ∧ Forall P t.

(** The body of the loop from the point where the response is there
    (lines 154 to 182): [iteration] is [fetch] followed by it. *)
Definition answered (w : World) (cfg : Config) (p : Progress)
    (response : Response) : M Progress :=
  if bool_decide (status response = 429) then
    log Warn TooManyRequests;;
    log Warn (RetryingIn REQUEST_COOL_DOWN);;
    sleep w REQUEST_COOL_DOWN;;
    mret p
  else if bool_decide (status response ≠ 200) then
    throw (StatusError (pageIndex p) (status response))
  else
    b ← json w response;
    match b with
    | BodyPage page =>
        if negb (success page) then throw (PageUnsuccessful (pageIndex p))
        else
          let total' :=
            if bool_decide (total p ≠ total_count page)
            then total_count page else total p in
          pushToDB w cfg (results page);;
          let fetched' := fetched p + Z.of_nat (length (results page)) in
          log Info (FetchedItems fetched' total' (pageIndex p));;
          mret {| pageIndex := pageIndex p + 1;
                  total := total';
                  fetched := fetched' |}
    | _ => throw EmptyResponse
    end.

(** The events of the fetch loop whose requests satisfy [ok]: it arms no
    timer and writes no file. *)
Definition loop_event (ok : Request → Prop) (ev : event) : Prop :=
  match ev with
  | Requested r => ok r
  | Armed _ | WroteFile _ _ => False
  | _ => True
  end.

(** The first request of an identifier's loop. *)
Definition first_request (appID : Z) : Request :=
  page_request appID init_progress.

(** * Properties *)

(** ** Values *)

Lemma value_size_elem l x :
  x ∈ l → (value_size x < value_size (VArr l))%nat.
Proof. simpl. induction 1; simpl; lia. Qed.

Lemma value_size_field (o : gmap string value) k x :
  o !! k = Some x → (value_size x < value_size (VObj o))%nat.
Proof.
  simpl. intros Hk. apply Nat.lt_succ_r. revert k x Hk.
  apply (map_fold_weak_ind
    (λ r m, ∀ k x, m !! k = Some x → (value_size x ≤ r)%nat)).
  - intros k x. by rewrite lookup_empty.
  - intros i y m r Hi IH k x. rewrite lookup_insert.
    case_decide; [intros [= ->]; lia|].
    intros Hk. specialize (IH _ _ Hk). lia.
Qed.

(** Induction on values that reaches into arrays and objects. *)
Lemma value_ind_nested (P : value → Prop) :
  P VUndef → P VNull → (∀ b, P (VBool b)) → (∀ n, P (VNum n)) →
  (∀ s, P (VStr s)) →
  (∀ l, Forall P l → P (VArr l)) →
  (∀ o, map_Forall (λ _, P) o → P (VObj o)) →
  ∀ v, P v.
Proof.
  intros Hu Hn Hb Hz Hs Ha Ho v.
  remember (value_size v) as n eqn:Hsz. revert v Hsz.
  induction n as [n IH] using lt_wf_ind. intros v ->.
  destruct v as [| | | | |l|o]; auto.
  - apply Ha, Forall_forall. intros x Hx.
    eapply IH; [|done]. by apply value_size_elem.
  - apply Ho. intros k x Hk.
    eapply IH; [|done]. by eapply value_size_field.
Qed.

Lemma list_eqb_spec {A} (eqb : A → A → bool) (l1 : list A) :
  Forall (λ x, ∀ y, eqb x y = true ↔ x = y) l1 →
  ∀ l2, list_eqb eqb l1 l2 = true ↔ l1 = l2.
Proof.
  induction 1 as [|x l1 Hx _ IH]; intros [|y l2]; simpl;
    try (split; congruence).
  rewrite andb_true_iff, Hx, IH.
  split; [intros [-> ->]; done|intros [= -> ->]; done].
Qed.

Lemma fold_field_eqb_spec {A} (eqb : A → A → bool) (o2 o1 : gmap string A) :
  map_fold (field_eqb eqb o2) true o1 = true ↔
  map_Forall (λ k x, ∃ y, o2 !! k = Some y ∧ eqb x y = true) o1.
Proof.
  apply (map_fold_weak_ind (λ r m, r = true ↔
    map_Forall (λ k x, ∃ y, o2 !! k = Some y ∧ eqb x y = true) m)).
  - split; [intros _; apply map_Forall_empty|done].
  - intros i x m r Hi IH. rewrite map_Forall_insert by done.
    unfold field_eqb. rewrite andb_true_iff, IH.
    destruct (o2 !! i) as [y|]; split.
    + intros [? ?]; eauto.
    + intros [(y' & [= <-] & ?) ?]; done.
    + intros [_ ?]; done.
    + intros [(y' & ? & _) _]; done.
Qed.

Lemma value_eqb_spec v1 : ∀ v2, value_eqb v1 v2 = true ↔ v1 = v2.
Proof.
  induction v1 as [| | b | n | s | l IH | o IH] using value_ind_nested;
    intros [| | b' | n' | s' | l' | o']; simpl;
    rewrite ?bool_decide_eq_true; try (split; congruence).
  - rewrite (list_eqb_spec _ _ IH). split; congruence.
  - rewrite andb_true_iff, bool_decide_eq_true, fold_field_eqb_spec. split.
    + intros [Hdom Hsub]. f_equal. apply map_eq. intros k.
      destruct (o !! k) as [x|] eqn:Hk.
      * destruct (Hsub k x Hk) as (y & Hy & Heq).
        apply (IH k x Hk) in Heq. by subst.
      * symmetry. apply not_elem_of_dom. rewrite <- Hdom.
        by apply not_elem_of_dom.
    + intros [= <-]. split; [done|]. intros k x Hk. exists x.
      split; [done|]. by apply (IH k x Hk).
Qed.

Lemma value_eqb_refl v : value_eqb v v = true.
Proof. by apply value_eqb_spec. Qed.

(** ** The operations built by [pushToDB] *)

Lemma outcome_bind_Done {A B} (r : outcome A) (f : A → outcome B) b :
  r ≫= f = Done b → ∃ a, r = Done a ∧ f a = Done b.
Proof. destruct r; simpl; [eauto|done|done]. Qed.

Lemma outcome_Done_bind {A B} (a : A) (f : A → outcome B) :
  Done a ≫= f = f a.
Proof. done. Qed.

Lemma outcome_Throw_bind {A B} e (f : A → outcome B) :
  Throw e ≫= f = Throw e.
Proof. done. Qed.

Lemma sell_price_not_listed : "sell_price" ∉ ITEM_PROPERTIES.
Proof. apply (bool_decide_unpack _). by vm_compute. Qed.

Lemma hash_name_not_listed : "hash_name" ∉ ITEM_PROPERTIES.
Proof. apply (bool_decide_unpack _). by vm_compute. Qed.

Lemma get_prop_returns base key :
  (∃ v, get_prop base key = Done v) ∨ get_prop base key = Throw (TypeError key).
Proof. destruct base; simpl; eauto. Qed.

Lemma resolve_returns item prop :
  (∃ v, resolve item prop = Done v) ∨
  (∃ key, resolve item prop = Throw (TypeError key)).
Proof.
  unfold resolve.
  destruct (get_prop_returns item prop) as [[top ->]| ->]; simpl; [|eauto].
  destruct (is_defined top); [eauto|].
  destruct (get_prop_returns item "asset_description") as [[d ->]| ->];
    simpl; [|eauto].
  destruct (get_prop_returns d prop) as [[v ->]| ->]; eauto.
Qed.

(** The fields of [toSet] after the loop over [props]: a listed property
    of the whitelist holds its resolved value, every other field is as it
    was. *)
Lemma set_props_lookup cfg item props toSet r :
  set_props cfg item props toSet = Done r →
  ∀ k,
    (k ∈ props → k ∈ properties cfg →
     ∃ v, resolve item k = Done v ∧ r !! k = Some v) ∧
    (¬ (k ∈ props ∧ k ∈ properties cfg) → r !! k = toSet !! k).
Proof.
  revert toSet. induction props as [|prop rest IH]; intros toSet Hrun k.
  - injection Hrun as <-. split; [|done]. by intros ?%elem_of_nil.
  - simpl in Hrun. unfold includes in Hrun. case_bool_decide as Hwl.
    + destruct (resolve item prop) as [v| |] eqn:Hres; simpl in Hrun;
        try discriminate.
      destruct (IH _ Hrun k) as [IHin IHout]. split.
      * intros Hk Hkwl. destruct (decide (k ∈ rest)) as [Hrest|Hrest];
          [by apply IHin|].
        apply elem_of_cons in Hk as [->|?]; [|done].
        exists v. split; [done|].
        rewrite IHout by tauto. apply lookup_insert_eq.
      * intros Hno. rewrite IHout.
        -- apply lookup_insert_ne. intros ->. apply Hno.
           split; [apply list_elem_of_here|done].
        -- intros [? ?]. apply Hno. split; [by apply list_elem_of_further|done].
    + destruct (IH _ Hrun k) as [IHin IHout]. split.
      * intros Hk Hkwl. apply IHin; [|done].
        apply elem_of_cons in Hk as [->|?]; done.
      * intros Hno. apply IHout. intros [? ?]. apply Hno.
        split; [by apply list_elem_of_further|done].
Qed.

(** The loop throws when a listed property of the whitelist cannot be
    resolved. *)
Lemma set_props_throws cfg item props toSet prop e :
  prop ∈ props → prop ∈ properties cfg →
  resolve item prop = Throw e →
  ∃ key, set_props cfg item props toSet = Throw (TypeError key).
Proof.
  intros Hin Hwl Hres. revert toSet.
  induction props as [|p rest IH]; intros toSet;
    [by apply elem_of_nil in Hin|].
  simpl. unfold includes. apply elem_of_cons in Hin as [<-|Hin].
  - rewrite bool_decide_eq_true_2 by done.
    destruct (resolve_returns item prop) as [[v Hv]|[key Hkey]];
      [congruence|].
    rewrite Hkey. simpl. eauto.
  - case_bool_decide; [|by apply IH].
    destruct (resolve_returns item p) as [[v ->]|[e' ->]]; simpl;
      [by apply IH|eauto].
Qed.

Lemma build_toSet_fields cfg item toSet :
  build_toSet cfg item = Done toSet →
  ∀ f, f ∈ dom toSet ↔
       f = "sell_price" ∨ (f ∈ ITEM_PROPERTIES ∧ f ∈ properties cfg).
Proof.
  unfold build_toSet. intros Hrun f.
  apply outcome_bind_Done in Hrun as (price & _ & Hrun).
  destruct (set_props_lookup _ _ _ _ _ Hrun f) as [Hin Hout].
  rewrite elem_of_dom.
  destruct (decide (f ∈ ITEM_PROPERTIES ∧ f ∈ properties cfg)) as [[H1 H2]|Hno].
  - destruct (Hin H1 H2) as (v & _ & ->). split; [by right|by eexists].
  - rewrite (Hout Hno). destruct (decide (f = "sell_price")) as [->|Hne].
    + rewrite lookup_singleton_eq. split; [by left|by eexists].
    + rewrite lookup_singleton_ne by done. split; [by intros []|].
      intros [?|?]; done.
Qed.


Lemma build_toSet_price cfg item toSet :
  build_toSet cfg item = Done toSet →
  ∃ price, get_prop item "sell_price" = Done price ∧
           toSet !! "sell_price" = Some price.
Proof.
  unfold build_toSet. intros Hrun.
  apply outcome_bind_Done in Hrun as (price & Hprice & Hrun).
  exists price. split; [done|].
  destruct (set_props_lookup _ _ _ _ _ Hrun "sell_price") as [_ ->].
  - apply lookup_singleton_eq.
  - intros [Hin _]. by apply sell_price_not_listed.
Qed.

Lemma build_op_throws cfg item prop e :
  prop ∈ ITEM_PROPERTIES → prop ∈ properties cfg →
  resolve item prop = Throw e →
  ∃ key, build_op cfg item = Throw (TypeError key).
Proof.
  intros Hin Hwl Hres. unfold build_op, build_toSet.
  destruct (get_prop_returns item "sell_price") as [[price ->]| ->];
    [|rewrite !outcome_Throw_bind; eauto].
  rewrite outcome_Done_bind.
  destruct (set_props_throws cfg item ITEM_PROPERTIES
              {[ "sell_price" := price ]} prop e Hin Hwl Hres) as [e' ->].
  rewrite outcome_Throw_bind. eauto.
Qed.

Lemma set_props_returns cfg item props toSet :
  (∃ r, set_props cfg item props toSet = Done r) ∨
  (∃ key, set_props cfg item props toSet = Throw (TypeError key)).
Proof.
  revert toSet. induction props as [|p ps IH]; intros t; simpl; [eauto|].
  destruct (includes _ _); [|done].
  destruct (resolve_returns item p) as [[v ->]|[key ->]]; simpl; eauto.
Qed.

Lemma build_op_returns cfg item :
  (∃ op, build_op cfg item = Done op) ∨
  (∃ key, build_op cfg item = Throw (TypeError key)).
Proof.
  unfold build_op, build_toSet.
  destruct (get_prop_returns item "sell_price") as [[price ->]| ->];
    [|right; by eexists].
  rewrite outcome_Done_bind.
  destruct (set_props_returns cfg item ITEM_PROPERTIES
              {[ "sell_price" := price ]}) as [[toSet ->]|[key ->]];
    [|right; by eexists].
  rewrite outcome_Done_bind.
  destruct (get_prop_returns item "hash_name") as [[h ->]| ->];
    [left|right]; by eexists.
Qed.

Lemma build_bulk_returns cfg items :
  (∃ ops, build_bulk cfg items = Done ops) ∨
  (∃ key, build_bulk cfg items = Throw (TypeError key)).
Proof.
  induction items as [|item rest IH]; simpl; [eauto|].
  destruct (build_op_returns cfg item) as [[op ->]|[key ->]]; simpl; [|eauto].
  destruct IH as [[ops ->]|[key ->]]; simpl; eauto.
Qed.

(** Every operation of a batch comes from an item of the page. *)
Lemma build_bulk_ops cfg items ops :
  build_bulk cfg items = Done ops →
  Forall2 (λ item op, build_op cfg item = Done op) items ops.
Proof.
  revert ops. induction items as [|item rest IH]; intros ops Hrun; simpl in Hrun.
  - injection Hrun as <-. constructor.
  - destruct (build_op cfg item) as [op| |] eqn:Hop; simpl in Hrun;
      try discriminate.
    destruct (build_bulk cfg rest) as [ops'| |]; simpl in Hrun;
      try discriminate.
    injection Hrun as <-. constructor; [done|by apply IH].
Qed.

(** One operation per item: the batch of a page is empty when the page
    is. *)
Lemma build_bulk_length cfg items ops :
  build_bulk cfg items = Done ops → length ops = length items.
Proof. intros Hrun%build_bulk_ops. symmetry. by eapply Forall2_length. Qed.

Lemma build_bulk_nonempty cfg items ops :
  build_bulk cfg items = Done ops → items ≠ [] → ops ≠ [].
Proof.
  intros Hlen%build_bulk_length Hitems ->. by destruct items.
Qed.

Lemma build_bulk_empty cfg items :
  build_bulk cfg items = Done [] → items = [].
Proof. intros Hlen%build_bulk_length. by destruct items. Qed.

Lemma build_bulk_throws cfg items item :
  item ∈ items →
  (∃ e, build_op cfg item = Throw e) →
  ∃ key, build_bulk cfg items = Throw (TypeError key).
Proof.
  intros Hin [e He].
  destruct (build_bulk_returns cfg items) as [[ops Hops]|?]; [|done].
  exfalso. apply build_bulk_ops in Hops.
  apply list_elem_of_lookup in Hin as [i Hi].
  destruct (Forall2_lookup_l _ _ _ _ _ Hops Hi) as (op & _ & Hop).
  congruence.
Qed.

Lemma build_op_inv cfg item op :
  build_op cfg item = Done op →
  build_toSet cfg item = Done (op_set op) ∧
  get_prop item "hash_name" = Done (op_hash_name op).
Proof.
  unfold build_op. intros Hrun.
  apply outcome_bind_Done in Hrun as (toSet & HtoSet & Hrun).
  apply outcome_bind_Done in Hrun as (h & Hh & Hrun).
  by injection Hrun as <-.
Qed.

(** ** The document store *)

Lemma persists_refl c : persists c c.
Proof. intros i d Hd. eauto. Qed.

Lemma persists_trans c1 c2 c3 :
  persists c1 c2 → persists c2 c3 → persists c1 c3.
Proof.
  intros H12 H23 i d Hd.
  destruct (H12 i d Hd) as (d2 & Hd2 & Hk2).
  destruct (H23 i d2 Hd2) as (d3 & Hd3 & Hk3).
  exists d3. split; [done|congruence].
Qed.

(** What an upsert makes of the document at a place. *)
Lemma upsert_lookup h toSet c i d' :
  upsert h toSet c !! i = Some d' →
  (∃ d, c !! i = Some d ∧ (d' = d ∨ d' = toSet ∪ d)) ∨
  (c !! i = None ∧ d' = toSet ∪ {[ "hash_name" := h ]}).
Proof.
  revert i. induction c as [|d c IH]; intros i; simpl.
  - destruct i; simpl; [|done]. intros [= <-]. by right.
  - destruct (matches h d).
    + destruct i; simpl; [intros [= <-]|intros Hi]; left; eauto.
    + destruct i; simpl; [intros [= <-]; left; eauto|]. apply IH.
Qed.

(** An upsert keeps every document, and every field that [$set] does not
    name. *)
Lemma upsert_frame h toSet c i d :
  c !! i = Some d →
  ∃ d', upsert h toSet c !! i = Some d' ∧
        ∀ f, f ∉ dom toSet → d' !! f = d !! f.
Proof.
  revert i. induction c as [|d0 c IH]; intros i; simpl; [done|].
  destruct (matches h d0).
  - destruct i; simpl.
    + intros [= ->]. exists (toSet ∪ d). split; [done|].
      intros f Hf. apply lookup_union_r. by apply not_elem_of_dom.
    + intros Hi. eauto.
  - destruct i; simpl; [intros [= ->]; eauto|]. apply IH.
Qed.

Lemma apply_bulk_frame (F : string → Prop) ops :
  Forall (λ op, ∀ f, f ∈ dom (op_set op) → F f) ops →
  ∀ c i d, c !! i = Some d →
    ∃ d', apply_bulk c ops !! i = Some d' ∧
          ∀ f, ¬ F f → d' !! f = d !! f.
Proof.
  unfold apply_bulk.
  induction 1 as [|op ops Hop _ IH]; intros c i d Hd; simpl; [eauto|].
  destruct (upsert_frame (op_hash_name op) (op_set op) c i d Hd)
    as (d1 & Hd1 & Hf1).
  destruct (IH _ i d1 Hd1) as (d' & Hd' & Hf').
  exists d'. split; [done|]. intros f Hf.
  rewrite Hf' by done. apply Hf1. intros Hin. by apply Hf, Hop.
Qed.

(** The documents a batch adds hold the key and fields named by [$set],
    nothing else. *)
Lemma apply_bulk_added (F : string → Prop) ops :
  Forall (λ op, ∀ f, f ∈ dom (op_set op) → F f) ops →
  ∀ c (n : nat),
    (∀ i d, (n ≤ i)%nat → c !! i = Some d →
            ∀ f, f ∈ dom d → f = "hash_name" ∨ F f) →
    ∀ i d, (n ≤ i)%nat → apply_bulk c ops !! i = Some d →
           ∀ f, f ∈ dom d → f = "hash_name" ∨ F f.
Proof.
  unfold apply_bulk.
  induction 1 as [|op ops Hop _ IH]; intros c n Hc; simpl; [done|].
  apply IH. intros i d' Hi Hd' f Hf.
  apply upsert_lookup in Hd' as [(d & Hd & [->| ->])|[_ ->]].
  - by eapply Hc.
  - apply elem_of_dom in Hf. rewrite lookup_union_is_Some in Hf.
    destruct Hf as [Hf|Hf]; apply elem_of_dom in Hf;
      [right; by apply Hop|by eapply Hc].
  - apply elem_of_dom in Hf. rewrite lookup_union_is_Some in Hf.
    destruct Hf as [Hf|Hf]; apply elem_of_dom in Hf;
      [right; by apply Hop|].
    left. rewrite dom_singleton_L in Hf. by apply elem_of_singleton in Hf.
Qed.


Lemma build_bulk_replicate cfg item op n :
  build_op cfg item = Done op →
  build_bulk cfg (replicate n item) = Done (replicate n op).
Proof. intros Hop. induction n as [|n IH]; simpl; [done|]. by rewrite Hop, IH. Qed.

(** The operations of a batch name [sell_price] and listed properties of
    the whitelist, and never the key. *)
Lemma build_bulk_fields cfg items ops :
  build_bulk cfg items = Done ops →
  Forall (λ op, ∀ f, f ∈ dom (op_set op) ↔
            f = "sell_price" ∨ (f ∈ ITEM_PROPERTIES ∧ f ∈ properties cfg))
         ops.
Proof.
  intros Hrun. apply build_bulk_ops in Hrun.
  induction Hrun as [|item op items ops Hop _ IH]; constructor; [|done].
  apply build_op_inv in Hop as [HtoSet _].
  exact (build_toSet_fields _ _ _ HtoSet).
Qed.

Lemma apply_bulk_persists cfg items ops c :
  build_bulk cfg items = Done ops →
  persists c (apply_bulk c ops).
Proof.
  intros Hrun i d Hd.
  destruct (apply_bulk_frame
    (λ f, f = "sell_price" ∨ (f ∈ ITEM_PROPERTIES ∧ f ∈ properties cfg))
    ops) with (c := c) (i := i) (d := d) as (d' & Hd' & Hf); [|done|].
  - eapply Forall_impl; [exact (build_bulk_fields _ _ _ Hrun)|].
    intros op Hop f. by apply Hop.
  - exists d'. split; [done|]. apply Hf. intros [?|[Hin _]]; [done|].
    by apply hash_name_not_listed.
Qed.

(** ** What one method call does to the state *)

Lemma evolves_refl s : evolves s s.
Proof. split; [done|done|apply persists_refl|done|done|done]. Qed.

Lemma evolves_trans s1 s2 s3 : evolves s1 s2 → evolves s2 s3 → evolves s1 s3.
Proof.
  intros [] []. split; [congruence|congruence| | |lia|lia].
  - by eapply persists_trans.
  - by etrans.
Qed.

Create HintDb steady.

Lemma steady_ret {A} (a : A) : steady (mret a).
Proof. intros s. apply evolves_refl. Qed.

Lemma steady_throw {A} e : steady (throw (A := A) e).
Proof. intros s. apply evolves_refl. Qed.

Lemma steady_lift {A} (r : outcome A) : steady (lift r).
Proof. intros s. apply evolves_refl. Qed.

Lemma steady_ask {A} (f : Sys → A) : steady (ask f).
Proof. intros s. apply evolves_refl. Qed.

Lemma M_bind_run {A B} (m : M A) (f : A → M B) s :
  (m ≫= f) s =
    match m s with
    | (Done a, s') => f a s'
    | (Throw e, s') => (Throw e, s')
    | (Diverge, s') => (Diverge, s')
    end.
Proof. done. Qed.

Lemma steady_bind {A B} (m : M A) (f : A → M B) :
  steady m → (∀ a, steady (f a)) → steady (m ≫= f).
Proof.
  intros Hm Hf s. specialize (Hm s). unfold mbind, M_bind.
  destruct (m s) as [[a| |] s1]; simpl in *; [|done|done].
  eapply evolves_trans; [done|apply Hf].
Qed.

Lemma steady_emit ev : steady (emit ev).
Proof.
  intros s. split; simpl; [done|done|apply persists_refl| |done|done].
  by apply prefix_app_r.
Qed.

Lemma steady_log lvl m : steady (log lvl m).
Proof. apply steady_emit. Qed.

Lemma steady_try_catch {A} (body : M A) handler :
  steady body → (∀ e, steady (handler e)) → steady (try_catch body handler).
Proof.
  intros Hb Hh s. specialize (Hb s). unfold try_catch.
  destruct (body s) as [[a| |] s1]; simpl in *; [done| |done].
  eapply evolves_trans; [done|apply Hh].
Qed.

#[global] Hint Resolve steady_ret steady_throw steady_lift steady_ask
  steady_emit steady_log : steady.

(** Goes through the binds and branches of a method, leaving the calls
    that the hints do not know. *)
Ltac steady_step :=
  match goal with
  | |- steady (_ ≫= _) => apply steady_bind; [|intros ?]
  | |- steady (if ?b then _ else _) => destruct b
  | |- steady (match ?x with _ => _ end) => destruct x
  | |- steady (try_catch _ _) => apply steady_try_catch; [|intros ?]
  | |- steady _ => solve [auto with steady]
  end.
Ltac steady_steps := repeat steady_step.

Section Runs.
Context (w : World) (cfg : Config).

Lemma steady_await min : 0 ≤ min → steady (await w min).
Proof.
  intros Hmin s. split; simpl; [done|done|apply persists_refl|done|lia|lia].
Qed.

Lemma steady_pause : steady (await w 0).
Proof. by apply steady_await. Qed.

Lemma steady_cool_down : steady (await w REQUEST_COOL_DOWN).
Proof. by apply steady_await. Qed.

#[local] Hint Resolve steady_pause steady_cool_down : steady.

Lemma steady_fetch req : steady (fetch w req).
Proof. unfold fetch. steady_steps. Qed.

Lemma steady_json r : steady (json w r).
Proof. unfold json. steady_steps. Qed.

Lemma steady_sleep : steady (sleep w REQUEST_COOL_DOWN).
Proof. unfold sleep. steady_steps. Qed.

Lemma steady_pushToDB items : steady (pushToDB w cfg items).
Proof.
  intros s. unfold pushToDB, execute, mbind, M_bind, lift, ask, modify; simpl.
  destruct (build_bulk cfg items) as [ops| |] eqn:Hops; simpl;
    [|apply evolves_refl..].
  destruct (accepted w ops s); simpl.
  - split; simpl; [done|done| |by apply prefix_app_r|lia|lia].
    by eapply apply_bulk_persists.
  - split; simpl; [done|done|apply persists_refl|by apply prefix_app_r|lia|lia].
Qed.

#[local] Hint Resolve steady_fetch steady_json steady_sleep
  steady_pushToDB : steady.

Lemma steady_iteration appID p : steady (iteration w cfg appID p).
Proof.
  unfold iteration. steady_steps.
Qed.

Lemma steady_do_while fuel appID p : steady (do_while w cfg fuel appID p).
Proof.
  revert p. induction fuel as [|fuel IH]; intros p; simpl; [steady_steps|].
  apply steady_bind; [apply steady_iteration|intros p'].
  case_bool_decide; [apply IH|steady_steps].
Qed.

Lemma steady_fetch_app fuel appID : steady (fetch_app w cfg fuel appID).
Proof.
  unfold fetch_app. pose proof steady_do_while. steady_steps.
Qed.

Lemma steady_for_apps fuel ids : steady (for_apps w cfg fuel ids).
Proof.
  pose proof steady_fetch_app.
  induction ids as [|appID rest IH]; simpl; steady_steps.
Qed.

End Runs.

(** ** One pass of the fetch loop *)

Section FetchLoop.
Context (w : World) (cfg : Config).

Ltac run_method :=
  unfold iteration, fetch, json, sleep, pushToDB, execute, log, emit, await,
    throw, lift, ask, modify, mbind, M_bind, mret, M_ret; simpl.

(** [if (total !== page['total_count']) total = page['total_count']] *)
Lemma adjust_total (t tc : Z) :
  (if bool_decide (t ≠ tc) then tc else t) = tc.
Proof. case_bool_decide as H; [done|]. destruct (decide (t = tc)); done. Qed.

Lemma iteration_throttled appID p s r :
  server w (awaits s) (page_request appID p) = Replied r →
  status r = 429 →
  iteration w cfg appID p s = (Done p, throttled w (page_request appID p) s).
Proof.
  intros Hr Hst. run_method. rewrite Hr. simpl.
  by rewrite bool_decide_eq_true_2.
Qed.

Lemma iteration_page appID p s r page ops :
  server w (awaits s) (page_request appID p) = Replied r →
  status r = 200 →
  body r = BodyPage page →
  success page = true →
  results page ≠ [] →
  build_bulk cfg (results page) = Done ops →
  store_accepts w (S (S (awaits s))) = true →
  iteration w cfg appID p s =
    (Done (advance p page), stored w appID p page ops s).
Proof.
  intros Hr Hst Hb Hs Hitems Hops Hacc.
  pose proof (build_bulk_nonempty _ _ _ Hops Hitems) as Hne.
  destruct ops as [|op ops]; [done|]. clear Hne.
  run_method. rewrite Hr. simpl.
  rewrite bool_decide_eq_false_2 by lia.
  rewrite bool_decide_eq_false_2 by (intros H; by apply H).
  rewrite Hb, Hs. simpl. rewrite Hops. simpl. rewrite Hacc. simpl.
  unfold advance, stored. by rewrite !adjust_total.
Qed.

(** A pass that returns met status 429, or stored a page that holds an
    item at least. *)
Lemma iteration_Done appID p s p' s' :
  iteration w cfg appID p s = (Done p', s') →
  ∃ r, server w (awaits s) (page_request appID p) = Replied r ∧
    ((status r = 429 ∧ p' = p ∧ s' = throttled w (page_request appID p) s) ∨
     (status r = 200 ∧ ∃ page ops,
        body r = BodyPage page ∧ success page = true ∧
        results page ≠ [] ∧
        build_bulk cfg (results page) = Done ops ∧
        store_accepts w (S (S (awaits s))) = true ∧
        p' = advance p page ∧ s' = stored w appID p page ops s)).
Proof.
  intros Hrun.
  destruct (server w (awaits s) (page_request appID p)) as [|r] eqn:Hr.
  { revert Hrun. run_method. by rewrite Hr. }
  exists r. split; [done|].
  destruct (decide (status r = 429)) as [Hst|Hst].
  { left. rewrite (iteration_throttled _ _ _ _ Hr Hst) in Hrun.
    by injection Hrun as <- <-. }
  right. revert Hrun. run_method. rewrite Hr. simpl.
  rewrite bool_decide_eq_false_2 by done.
  case_bool_decide as Hok; [done|].
  assert (status r = 200) as Hok' by (destruct (decide (status r = 200)); done).
  destruct (body r) as [| |page] eqn:Hb; simpl; [done|done|].
  destruct (success page) eqn:Hs; simpl; [|done].
  destruct (build_bulk cfg (results page)) as [ops| |] eqn:Hops; simpl;
    [|done|done].
  unfold accepted. destruct ops as [|op ops]; simpl; [done|].
  destruct (store_accepts w (S (S (awaits s)))) eqn:Hacc; simpl; [|done].
  intros [= <- <-]. split; [done|]. exists page, (op :: ops).
  repeat split; try done.
  - intros Hnil. by rewrite Hnil in Hops.
  - unfold advance. by rewrite adjust_total.
  - unfold stored, advance. by rewrite !adjust_total.
Qed.

(** The first thing a pass does is to ask for the page at [fetched]. *)
Lemma iteration_first_event appID p s :
  (trace s ++ [Requested (page_request appID p)])
    `prefix_of` trace (iteration w cfg appID p s).2.
Proof.
  unfold iteration. rewrite M_bind_run.
  assert (fetch w (page_request appID p) s =
          (match server w (awaits s) (page_request appID p) with
           | Unreachable => Throw NetworkError
           | Replied r => Done r
           end, requested w (page_request appID p) s)) as ->.
  { run_method. by destruct (server _ _ _). }
  destruct (server _ _ _) as [|r]; [done|].
  match goal with
  | |- _ `prefix_of` trace (?m ?s1).2 =>
      assert (steady m) as Hm; [|apply (evolves_trace _ _ (Hm s1))]
  end.
  pose proof (steady_sleep w). pose proof (steady_json w).
  pose proof (steady_pushToDB w cfg). steady_steps.
Qed.

(** The test of the loop holds in every state at the head of its body. *)
Lemma loop_head_running appID s0 p s :
  loop_head w cfg appID s0 p s → fetched p < total p.
Proof. by destruct 1. Qed.

(** The unfolding of one pass of the loop. *)
Lemma do_while_pass fuel appID p s p' s' :
  iteration w cfg appID p s = (Done p', s') →
  do_while w cfg (S fuel) appID p s =
    if bool_decide (fetched p' < total p')
    then do_while w cfg fuel appID p' s'
    else (Done tt, s').
Proof.
  intros Hrun. simpl. unfold mbind, M_bind. rewrite Hrun.
  by case_bool_decide.
Qed.

Lemma do_while_throw fuel appID p s e s' :
  iteration w cfg appID p s = (Throw e, s') →
  do_while w cfg (S fuel) appID p s = (Throw e, s').
Proof. intros Hrun. simpl. unfold mbind, M_bind. by rewrite Hrun. Qed.

End FetchLoop.

Section FetchLoopFacts.
Context (w : World) (cfg : Config).

Lemma trace_throttled req s :
  trace (throttled w req s) =
    trace s ++ [Requested req; Logged Warn TooManyRequests;
                Logged Warn (RetryingIn REQUEST_COOL_DOWN);
                Slept REQUEST_COOL_DOWN].
Proof. simpl. by rewrite <- !app_assoc. Qed.

Lemma trace_stored appID p page ops s :
  trace (stored w appID p page ops s) =
    trace s ++ [Requested (page_request appID p); Executed ops true;
                Logged Info (FetchedItems (fetched (advance p page))
                               (total_count page) (pageIndex p))].
Proof. simpl. by rewrite <- !app_assoc. Qed.

Lemma awaits_stored appID p page ops s :
  awaits (stored w appID p page ops s) = S (S (S (awaits s))).
Proof. done. Qed.

End FetchLoopFacts.

(** ** The fetch loop: main results *)

(** C3.  In every state at the head of the body of an identifier's loop
    (whatever the state [s0] in which the loop was entered), a pass whose
    response has status 429 returns with [fetched], [pageIndex] and
    [total] unchanged and never throws; it hands nothing to the store
    (the collection is as before and the pass adds no [Executed] event);
    it logs two warnings and sleeps [REQUEST_COOL_DOWN] = 30000 ms, so at
    least 30 seconds pass; the loop then goes on from the same loop
    state, and the next thing it does is to send the same request
    again. *)
Theorem throttled_pass_retries_same_request
    (w : World) (cfg : Config) (appID : Z) (s0 : Sys) (p : Progress)
    (s : Sys) (r : Response) :
  loop_head w cfg appID s0 p s →
  server w (awaits s) (page_request appID p) = Replied r →
  status r = 429 →
  let s' := throttled w (page_request appID p) s in
  iteration w cfg appID p s = (Done p, s') ∧
  collection s' = collection s ∧
  batches (trace s') = batches (trace s) ∧
  trace s' = trace s ++ [Requested (page_request appID p);
                         Logged Warn TooManyRequests;
                         Logged Warn (RetryingIn REQUEST_COOL_DOWN);
                         Slept REQUEST_COOL_DOWN] ∧
  REQUEST_COOL_DOWN = 30000 ∧
  clock s + REQUEST_COOL_DOWN ≤ clock s' ∧
  loop_head w cfg appID s0 p s' ∧
  (∀ fuel, do_while w cfg (S fuel) appID p s = do_while w cfg fuel appID p s') ∧
  (trace s' ++ [Requested (page_request appID p)])
    `prefix_of` trace (iteration w cfg appID p s').2.
Proof.
  intros Hhead Hr Hst s'.
  pose proof (iteration_throttled w cfg appID p s r Hr Hst) as Hrun.
  pose proof (loop_head_running _ _ _ _ _ _ Hhead) as Hlt.
  repeat split.
  - done.
  - subst s'. rewrite trace_throttled. unfold batches. rewrite omap_app.
    simpl. by rewrite app_nil_r.
  - apply trace_throttled.
  - simpl. lia.
  - by eapply head_again.
  - intros fuel. rewrite (do_while_pass _ _ _ _ _ _ _ _ Hrun).
    by rewrite bool_decide_eq_true_2.
  - apply iteration_first_event.
Qed.

Lemma throttled_pass_retries_same_request_witness :
  let w := calm_world (λ _ _, too_many_requests) in
  let s' := throttled w (page_request 578080 init_progress) (fresh 0) in
  iteration w readme_config 578080 init_progress (fresh 0)
    = (Done init_progress, s') ∧
  clock s' = 30000 ∧
  requests (trace (iteration w readme_config 578080 init_progress s').2)
    = [page_request 578080 init_progress; page_request 578080 init_progress].
Proof.
  intros w s'.
  destruct (throttled_pass_retries_same_request w readme_config 578080
              (fresh 0) init_progress (fresh 0)
              {| status := 429; body := BodyEmpty |})
    as (Hrun & _); [apply head_entry|reflexivity|reflexivity|].
  split; [exact Hrun|]. split; reflexivity.
Defined.

(** C1.  A pass of the loop that throws no error either met status 429
    and left the loop state as it was, or met status 200 with a page,
    and then [fetched] has grown by exactly the number of items of the
    page, [pageIndex] by one, and [total] is the page's [total_count],
    whatever it was before.  The page holds one item at least (for a
    page without items [bulk.execute()] has no operation, which the
    driver rejects, and the pass throws), so [fetched] has strictly
    increased; it never decreases.  After the pass the loop ends exactly
    when [fetched >= total] for the values the pass leaves, and goes on
    with them otherwise. *)
Theorem pass_adds_page_length
    (w : World) (cfg : Config) (appID : Z) (p : Progress) (s : Sys)
    (p' : Progress) (s' : Sys) :
  iteration w cfg appID p s = (Done p', s') →
  (∃ r, server w (awaits s) (page_request appID p) = Replied r ∧
     ((status r = 429 ∧ p' = p) ∨
      (status r = 200 ∧ ∃ page,
         body r = BodyPage page ∧
         fetched p' = fetched p + Z.of_nat (length (results page)) ∧
         fetched p < fetched p' ∧
         pageIndex p' = pageIndex p + 1 ∧
         total p' = total_count page))) ∧
  fetched p ≤ fetched p' ∧
  (∀ fuel,
     do_while w cfg (S fuel) appID p s =
       if bool_decide (fetched p' >= total p')
       then (Done tt, s')
       else do_while w cfg fuel appID p' s').
Proof.
  intros Hrun.
  destruct (iteration_Done _ _ _ _ _ _ _ Hrun) as (r & Hr & Hcases).
  split; [exists r; split; [done|]|split].
  - destruct Hcases
      as [(Hst & -> & _)|(Hst & page & ops & Hb & _ & Hitems & _ & _ & -> & _)].
    + by left.
    + right. split; [done|]. exists page. repeat split; try done.
      simpl. destruct (results page); [done|]. simpl. lia.
  - destruct Hcases
      as [(_ & -> & _)|(_ & page & ops & _ & _ & _ & _ & _ & -> & _)];
      simpl; lia.
  - intros fuel. rewrite (do_while_pass _ _ _ _ _ _ _ _ Hrun).
    repeat case_bool_decide; (done || lia).
Qed.

Lemma pass_adds_page_length_witness :
  let w := calm_world (λ _ _, page_reply 250 [VObj ∅; VObj ∅]) in
  let cfg := {| updateInterval := 1800000; apps := [578080];
                properties := [] |} in
  ∃ p' s',
    iteration w cfg 578080 init_progress (fresh 0) = (Done p', s') ∧
    fetched p' = 2 ∧
    fetched init_progress ≤ fetched p'.
Proof.
  intros w cfg.
  set (page := {| success := true; total_count := 250;
                  results := [VObj ∅; VObj ∅] |}).
  destruct (build_bulk_returns cfg (results page)) as [[ops Hops]|[key Hkey]];
    [|by vm_compute in Hkey].
  pose proof (iteration_page w cfg 578080 init_progress (fresh 0) _ page ops
                eq_refl eq_refl eq_refl eq_refl ltac:(done) Hops eq_refl)
    as Hrun.
  exists (advance init_progress page),
         (stored w 578080 init_progress page ops (fresh 0)).
  split; [exact Hrun|]. split; [reflexivity|].
  exact (proj1 (proj2 (pass_adds_page_length w cfg 578080 init_progress
                         (fresh 0) _ _ Hrun))).
Defined.

(** C2.  Let every request be answered with status 200 by a successful
    page that reports [total_count = 250] and holds
    [min(100, 250 - start)] items, and let each page be stored (its items
    can be turned into a batch and the store accepts the batch).  Then
    the loop of an identifier returns, given room for three passes; it
    has sent exactly three requests, for [PAGE_SIZE] = 100 items at
    offsets 0, 100 and 200, and the values of [fetched] after the pages
    are 100, 200 and 250. *)
Theorem three_requests_for_250_items
    (w : World) (cfg : Config) (appID : Z) (s : Sys) (fuel : nat) :
  (3 ≤ fuel)%nat →
  (∀ n req, 0 ≤ req_start req < 250 → ∃ items,
     server w n req = page_reply 250 items ∧
     Z.of_nat (length items) = Z.min 100 (250 - req_start req) ∧
     ∃ ops, build_bulk cfg items = Done ops) →
  (∀ n, store_accepts w n = true) →
  ∃ s',
    do_while w cfg fuel appID init_progress s = (Done tt, s') ∧
    requests (trace s') =
      requests (trace s) ++
        [ {| req_appid := appID; req_start := 0; req_count := 100 |};
          {| req_appid := appID; req_start := 100; req_count := 100 |};
          {| req_appid := appID; req_start := 200; req_count := 100 |} ] ∧
    fetched_counts (trace s') = fetched_counts (trace s) ++ [100; 200; 250].
Proof.
  intros Hfuel Hsrv Hacc.
  destruct fuel as [|[|[|fuel]]]; try lia. clear Hfuel.
  assert (∀ q t, 0 ≤ fetched q < 250 → ∃ q' t',
            iteration w cfg appID q t = (Done q', t') ∧
            fetched q' = fetched q + Z.min 100 (250 - fetched q) ∧
            total q' = 250 ∧
            requests (trace t') = requests (trace t) ++ [page_request appID q] ∧
            fetched_counts (trace t') = fetched_counts (trace t) ++ [fetched q'])
    as Hpass.
  { intros q t Hq.
    destruct (Hsrv (awaits t) (page_request appID q) Hq)
      as (items & Hr & Hlen & ops & Hops).
    eexists _, _. split; [|split; [|split; [|split]]].
    - apply (iteration_page w cfg appID q t _
                  {| success := true; total_count := 250; results := items |}
                  ops Hr); try done.
      simpl. intros ->. simpl in Hlen. lia.
    - simpl in *. lia.
    - done.
    - rewrite trace_stored. unfold requests. rewrite omap_app. done.
    - rewrite trace_stored. unfold fetched_counts. rewrite omap_app. done. }
  destruct (Hpass init_progress s) as (p1 & s1 & Hrun1 & Hf1 & Ht1 & Hr1 & Hc1);
    [done|].
  simpl in Hf1. assert (fetched p1 = 100) as Hp1 by lia.
  destruct (Hpass p1 s1) as (p2 & s2 & Hrun2 & Hf2 & Ht2 & Hr2 & Hc2); [lia|].
  assert (fetched p2 = 200) as Hp2 by lia.
  destruct (Hpass p2 s2) as (p3 & s3 & Hrun3 & Hf3 & Ht3 & Hr3 & Hc3); [lia|].
  assert (fetched p3 = 250) as Hp3 by lia.
  exists s3. split; [|split].
  - rewrite (do_while_pass _ _ _ _ _ _ _ _ Hrun1).
    rewrite bool_decide_eq_true_2 by lia.
    rewrite (do_while_pass _ _ _ _ _ _ _ _ Hrun2).
    rewrite bool_decide_eq_true_2 by lia.
    rewrite (do_while_pass _ _ _ _ _ _ _ _ Hrun3).
    by rewrite bool_decide_eq_false_2 by lia.
  - rewrite Hr3, Hr2, Hr1. unfold page_request. rewrite Hp1, Hp2.
    by rewrite <- !app_assoc.
  - rewrite Hc3, Hc2, Hc1, Hp1, Hp2, Hp3. by rewrite <- !app_assoc.
Qed.

Lemma three_requests_for_250_items_witness :
  let w := calm_world (λ _ req,
    page_reply 250 (replicate (Z.to_nat (Z.min 100 (250 - req_start req))) ak47)) in
  ∃ s',
    do_while w readme_config 3 578080 init_progress (fresh 0) = (Done tt, s') ∧
    requests (trace s') =
      [ {| req_appid := 578080; req_start := 0; req_count := 100 |};
        {| req_appid := 578080; req_start := 100; req_count := 100 |};
        {| req_appid := 578080; req_start := 200; req_count := 100 |} ] ∧
    fetched_counts (trace s') = [100; 200; 250].
Proof.
  intros w.
  apply (three_requests_for_250_items w readme_config 578080 (fresh 0) 3).
  - lia.
  - intros n req Hreq. eexists. split; [reflexivity|]. split.
    + rewrite length_replicate. lia.
    + eexists. apply build_bulk_replicate. by vm_compute.
  - done.
Defined.

(** ** The batch upserter: main results *)

Section Upserter.
Context (w : World) (cfg : Config).

Lemma pushToDB_run items s :
  pushToDB w cfg items s =
    match build_bulk cfg items with
    | Done ops =>
        (if accepted w ops s then Done tt
         else Throw (match ops with [] => NoOperations | _ => StoreError end),
         executed w ops s)
    | Throw e => (Throw e, s)
    | Diverge => (Diverge, s)
    end.
Proof.
  unfold pushToDB, execute, executed, lift, ask, modify, emit, await, throw,
    mbind, M_bind; simpl.
  destruct (build_bulk cfg items) as [ops| |]; simpl; [|done|done].
  by destruct (accepted w ops s).
Qed.

Lemma collection_executed ops s :
  collection (executed w ops s) =
    if accepted w ops s then apply_bulk (collection s) ops
    else collection s.
Proof. unfold executed. by destruct (accepted w ops s). Qed.

(** With a store that accepts, the collection is the batch applied: the
    batch without operation, which the driver rejects, has nothing to
    apply. *)
Lemma collection_executed_accepting ops s :
  store_accepts w (awaits s) = true →
  collection (executed w ops s) = apply_bulk (collection s) ops.
Proof.
  intros Hacc. rewrite collection_executed. unfold accepted.
  destruct ops; [done|]. by rewrite Hacc.
Qed.

Lemma accepted_cons op ops s :
  accepted w (op :: ops) s = store_accepts w (awaits s).
Proof. done. Qed.






End Upserter.


Section Whitelist.
Context (w : World) (cfg : Config).

Lemma trace_executed ops s :
  trace (executed w ops s) = trace s ++ [Executed ops (accepted w ops s)].
Proof. unfold executed. by destruct (accepted w ops s). Qed.

(** C6.  Whatever [pushToDB] is given: the batch it builds has one
    operation per item, keyed by the item's [hash_name]; each operation
    sets exactly [sell_price], to the item's price, and those properties
    of [ITEM_PROPERTIES] that are on the whitelist, so [sell_price] is
    set for every item and a field that is not on the whitelist is in no
    [$set]; in the store, every document that was there is still there
    with every field other than [sell_price] and the whitelisted ones as
    it was; and the documents the batch adds hold nothing but the key,
    [sell_price] and whitelisted properties. *)
Theorem upsert_sets_price_and_whitelisted (items : list value) (s : Sys) :
  let s' := (pushToDB w cfg items s).2 in
  (∀ ops, build_bulk cfg items = Done ops →
     Forall2 (λ item op, ∃ price,
                get_prop item "hash_name" = Done (op_hash_name op) ∧
                get_prop item "sell_price" = Done price ∧
                op_set op !! "sell_price" = Some price)
             items ops ∧
     Forall (λ op, ∀ f, f ∈ dom (op_set op) ↔
               f = "sell_price" ∨ (f ∈ ITEM_PROPERTIES ∧ f ∈ properties cfg))
            ops ∧
     batches (trace s') = batches (trace s) ++ [ops] ∧
     (store_accepts w (awaits s) = true →
      collection s' = apply_bulk (collection s) ops)) ∧
  (∀ i d, collection s !! i = Some d →
     ∃ d', collection s' !! i = Some d' ∧
           ∀ f, f ≠ "sell_price" → f ∉ properties cfg → d' !! f = d !! f) ∧
  (∀ i d', (length (collection s) ≤ i)%nat →
     collection s' !! i = Some d' →
     ∀ f, f ∈ dom d' →
          f = "hash_name" ∨ f = "sell_price" ∨
          (f ∈ ITEM_PROPERTIES ∧ f ∈ properties cfg)).
Proof.
  intros s'. subst s'. rewrite pushToDB_run.
  destruct (build_bulk cfg items) as [ops| |] eqn:Hbulk; simpl.
  - pose proof (build_bulk_fields _ _ _ Hbulk) as Hfields.
    assert (Forall (λ op, ∀ f, f ∈ dom (op_set op) →
              f = "sell_price" ∨ (f ∈ ITEM_PROPERTIES ∧ f ∈ properties cfg))
              ops) as Hwithin.
    { eapply Forall_impl; [exact Hfields|]. intros op Hop f. by apply Hop. }
    split; [|split].
    + intros ? [= <-]. split; [|split; [done|split]].
      * eapply Forall2_impl; [exact (build_bulk_ops _ _ _ Hbulk)|].
        intros item op Hop. apply build_op_inv in Hop as [HtoSet Hkey].
        destruct (build_toSet_price _ _ _ HtoSet) as (price & ? & ?). eauto.
      * rewrite trace_executed. unfold batches. by rewrite omap_app.
      * intros Hacc. by rewrite collection_executed_accepting.
    + intros i d Hd. rewrite collection_executed.
      destruct (accepted w ops s); [|eauto].
      destruct (apply_bulk_frame _ _ Hwithin _ _ _ Hd) as (d' & Hd' & Hsame).
      exists d'. split; [done|]. intros f Hprice Hwl. apply Hsame. tauto.
    + intros i d' Hi. rewrite collection_executed.
      destruct (accepted w ops s).
      * intros Hd' f Hf.
        destruct (apply_bulk_added _ _ Hwithin (collection s)
                    (length (collection s))) with (i := i) (d := d') (f := f)
          as [?|[?|?]]; auto.
        intros j d Hj Hd. apply lookup_ge_None_2 in Hj. congruence.
      * intros Hd'. apply lookup_ge_None_2 in Hi. congruence.
  - split; [done|]. split; [eauto|].
    intros i d' Hi Hd'. apply lookup_ge_None_2 in Hi. congruence.
  - split; [done|]. split; [eauto|].
    intros i d' Hi Hd'. apply lookup_ge_None_2 in Hi. congruence.
Qed.

End Whitelist.

Lemma upsert_sets_price_and_whitelisted_witness :
  let w := calm_world (λ _ _, too_many_requests) in
  let cfg := {| updateInterval := 1800000; apps := [730];
                properties := ["name"; "sell_listings"] |} in
  let old : doc :=
    {[ "hash_name" := VStr "AK-47 | Redline (Field-Tested)";
       "sell_price" := VNum 1200;
       "name" := VStr "old name";
       "icon_url" := VStr "kept";
       "note" := VStr "kept too" ]} in
  let s' := (pushToDB w cfg [ak47] (set_collection [old] (fresh 0))).2 in
  length (collection s') = 1%nat ∧
  (∃ d', collection s' !! 0%nat = Some d' ∧
         d' !! "icon_url" = Some (VStr "kept") ∧
         d' !! "note" = Some (VStr "kept too")) ∧
  collection s' !! 0%nat ≫= (.!! "sell_price") = Some (VNum 1499) ∧
  collection s' !! 0%nat ≫= (.!! "name")
    = Some (VStr "AK-47 | Redline (Field-Tested)").
Proof.
  intros w cfg old s'.
  destruct (upsert_sets_price_and_whitelisted w cfg [ak47]
              (set_collection [old] (fresh 0)))
    as (_ & Hkept & _).
  destruct (Hkept 0%nat old) as (d' & Hd' & Hsame); [reflexivity|].
  split; [by vm_compute|]. split; [|split; by vm_compute].
  exists d'. split; [exact Hd'|].
  split; (rewrite Hsame; [reflexivity|discriminate|];
          apply (bool_decide_unpack _); by vm_compute).
Defined.

(** ** The cycle *)

Section Cycle.
Context (w : World) (cfg : Config).

Lemma for_apps_app fuel pre ids s :
  for_apps w cfg fuel (pre ++ ids) s =
    match for_apps w cfg fuel pre s with
    | (Done _, s1) => for_apps w cfg fuel ids s1
    | r => r
    end.
Proof.
  revert s. induction pre as [|appID pre IH]; intros s; simpl; [done|].
  rewrite !M_bind_run.
  destruct (fetch_app w cfg fuel appID s) as [[[]| |] s1]; [apply IH|done..].
Qed.

(** An identifier whose loop throws ends the pass over the identifiers:
    the outcome and the state are those of its loop, whatever identifiers
    come after it. *)
Lemma for_apps_short_circuit fuel pre appID rest s s1 e s2 :
  for_apps w cfg fuel pre s = (Done tt, s1) →
  fetch_app w cfg fuel appID s1 = (Throw e, s2) →
  for_apps w cfg fuel (pre ++ appID :: rest) s = (Throw e, s2).
Proof.
  intros Hpre Hfail. rewrite for_apps_app, Hpre. simpl.
  by rewrite M_bind_run, Hfail.
Qed.

Ltac run_cycle :=
  unfold updateMarketListingsData, writeLastUpdateTime, writeFileSync, stamp,
    arm, try_catch, log, emit, throw, ask, modify, mbind, M_bind; simpl.

Lemma cycle_run_failed fuel s e s2 :
  fetchMarketData w cfg fuel (cycle_started s) = (Throw e, s2) →
  updateMarketListingsData w cfg fuel s = (Done tt, cycle_failed cfg e s2).
Proof. intros Hpass. run_cycle. fold (cycle_started s). by rewrite Hpass. Qed.

Lemma cycle_run_completed fuel s s2 :
  fetchMarketData w cfg fuel (cycle_started s) = (Done tt, s2) →
  updateMarketListingsData w cfg fuel s = (Done tt, cycle_completed w cfg s2).
Proof.
  intros Hpass. run_cycle. fold (cycle_started s). rewrite Hpass. simpl.
  unfold cycle_completed. by destruct (fs_writes w (awaits s2)).
Qed.

Lemma cycle_run_diverge fuel s s2 :
  fetchMarketData w cfg fuel (cycle_started s) = (Diverge, s2) →
  updateMarketListingsData w cfg fuel s = (Diverge, s2).
Proof. intros Hpass. run_cycle. fold (cycle_started s). by rewrite Hpass. Qed.

End Cycle.

Lemma batches_prefix t t' :
  t `prefix_of` t' → batches t `prefix_of` batches t'.
Proof. intros [k ->]. unfold batches. rewrite omap_app. by eexists. Qed.

Section CycleOutcome.
Context (w : World) (cfg : Config).

(** C7.  In a cycle, let the identifiers before some identifier be
    fetched without error and let the loop of that identifier throw (a
    fetch error or a failed upsert).  Then the pass over the identifiers
    throws that error in the state the loop left: nothing is done for
    the identifiers after it.  [updateMarketListingsData] catches the
    error and returns: it logs the error, sends no further request,
    leaves [lastUpdate] and the watermark file as they were before the
    cycle, and arms the next cycle with the full [updateInterval]; the
    collection is the one the failing loop left, in which every document
    stored for the earlier identifiers is still there.  In a cycle whose
    pass throws nothing, [lastUpdate] becomes the time at which the pass
    ended and is written to the file (kept there when the write
    succeeds) before the next cycle is armed with [updateInterval]. *)
Theorem cycle_error_keeps_watermark_and_rearms (fuel : nat) (s : Sys) :
  (∀ pre appID rest s1 e s2,
     apps cfg = pre ++ appID :: rest →
     for_apps w cfg fuel pre (cycle_started s) = (Done tt, s1) →
     fetch_app w cfg fuel appID s1 = (Throw e, s2) →
     let s3 := cycle_failed cfg e s2 in
     fetchMarketData w cfg fuel (cycle_started s) = (Throw e, s2) ∧
     updateMarketListingsData w cfg fuel s = (Done tt, s3) ∧
     trace s3 = trace s2 ++ [Logged Error ErrorDuringPriceUpdate;
                             Logged Error (ErrorText e);
                             Armed (updateInterval cfg)] ∧
     requests (trace s3) = requests (trace s2) ∧
     lastUpdate s3 = lastUpdate s ∧
     update_file s3 = update_file s ∧
     collection s3 = collection s2 ∧
     persists (collection s1) (collection s3) ∧
     batches (trace s1) `prefix_of` batches (trace s3)) ∧
  (∀ s2,
     fetchMarketData w cfg fuel (cycle_started s) = (Done tt, s2) →
     let s3 := cycle_completed w cfg s2 in
     let ok := fs_writes w (awaits s2) in
     updateMarketListingsData w cfg fuel s = (Done tt, s3) ∧
     lastUpdate s3 = clock s2 ∧
     (ok = true → update_file s3 = Some (Number (clock s2))) ∧
     ∃ complaints,
       trace s3 = trace s2 ++
         [Logged Info WritingLastUpdate; WroteFile (clock s2) ok] ++
         complaints ++
         [Logged Info PriceUpdateComplete; Armed (updateInterval cfg)] ∧
       (ok = true → complaints = [])).
Proof.
  split.
  - intros pre appID rest s1 e s2 Happs Hpre Hfail s3.
    pose proof (steady_for_apps w cfg fuel pre (cycle_started s)) as Hev1.
    rewrite Hpre in Hev1. simpl in Hev1.
    pose proof (steady_fetch_app w cfg fuel appID s1) as Hev2.
    rewrite Hfail in Hev2. simpl in Hev2.
    assert (fetchMarketData w cfg fuel (cycle_started s) = (Throw e, s2))
      as Hpass.
    { unfold fetchMarketData. rewrite Happs.
      by eapply for_apps_short_circuit. }
    split; [done|]. split; [by apply cycle_run_failed|].
    split; [subst s3; simpl; by rewrite <- !app_assoc|].
    split.
    { subst s3. unfold requests. simpl. rewrite !omap_app. simpl.
      by rewrite !app_nil_r. }
    split.
    { subst s3. simpl. rewrite (evolves_lastUpdate _ _ Hev2).
      by rewrite (evolves_lastUpdate _ _ Hev1). }
    split.
    { subst s3. simpl. rewrite (evolves_file _ _ Hev2).
      by rewrite (evolves_file _ _ Hev1). }
    split; [done|]. split; [exact (evolves_docs _ _ Hev2)|].
    apply batches_prefix. subst s3. simpl.
    etrans; [exact (evolves_trace _ _ Hev2)|].
    rewrite <- !app_assoc. by apply prefix_app_r.
  - intros s2 Hpass s3 ok. split; [by apply cycle_run_completed|].
    subst s3 ok. unfold cycle_completed.
    destruct (fs_writes w (awaits s2)); simpl.
    + split; [done|]. split; [done|]. exists []. split; [|done].
      simpl. by rewrite <- !app_assoc.
    + split; [done|]. split; [done|].
      exists [Logged Error UnableToWrite; Logged Error (ErrorText FileError)].
      split; [|done]. simpl. by rewrite <- !app_assoc.
Qed.

End CycleOutcome.

Lemma cycle_error_keeps_watermark_and_rearms_witness :
  let w := calm_world (λ _ req,
    if bool_decide (req_appid req = 730) then page_reply 1 [ak47]
    else Replied {| status := 500; body := BodyEmpty |}) in
  let cfg := {| updateInterval := 1800000; apps := [730; 570];
                properties := ["name"] |} in
  let s3 := (updateMarketListingsData w cfg 5 (fresh 1000)).2 in
  (updateMarketListingsData w cfg 5 (fresh 1000)).1 = Done tt ∧
  lastUpdate s3 = 0 ∧
  update_file s3 = None ∧
  length (collection s3) = 1%nat ∧
  requests (trace s3) = [page_request 730 init_progress;
                         page_request 570 init_progress] ∧
  last (trace s3) = Some (Armed 1800000).
Proof.
  intros w cfg s3.
  destruct (cycle_error_keeps_watermark_and_rearms w cfg 5 (fresh 1000))
    as [Hfailed _].
  set (s1 := (for_apps w cfg 5 [730] (cycle_started (fresh 1000))).2).
  set (s2 := (fetch_app w cfg 5 570 s1).2).
  destruct (Hfailed [730] 570 [] s1 (StatusError 1 500) s2)
    as (_ & Hrun & _ & _ & Hwatermark & Hfile & _);
    [reflexivity|by vm_compute|by vm_compute|].
  subst s3. rewrite Hrun.
  split; [reflexivity|]. split; [exact Hwatermark|]. split; [exact Hfile|].
  split; by vm_compute.
Defined.

(** ** The bound on the passes *)

(** [fuel] only cuts runs short: a run that returns or throws within a
    bound does the same within every larger bound. *)
Section Fuel.
Context (w : World) (cfg : Config).

Lemma do_while_more_fuel fuel fuel' appID p s r s' :
  do_while w cfg fuel appID p s = (r, s') →
  r ≠ Diverge →
  (fuel ≤ fuel')%nat →
  do_while w cfg fuel' appID p s = (r, s').
Proof.
  revert fuel' p s. induction fuel as [|fuel IH]; intros fuel' p s Hrun Hr Hle.
  { injection Hrun as <- _. done. }
  destruct fuel' as [|fuel']; [lia|].
  revert Hrun. simpl. rewrite !M_bind_run.
  destruct (iteration w cfg appID p s) as [[p1| |] s1]; [|done..].
  case_bool_decide; [|done].
  intros Hrun. apply IH; [done|done|lia].
Qed.

Lemma fetch_app_more_fuel fuel fuel' appID s r s' :
  fetch_app w cfg fuel appID s = (r, s') →
  r ≠ Diverge →
  (fuel ≤ fuel')%nat →
  fetch_app w cfg fuel' appID s = (r, s').
Proof.
  unfold fetch_app. rewrite !M_bind_run.
  destruct (log Info (FetchingPrices appID) s) as [[[]| |] s1]; [|done..].
  rewrite !M_bind_run. intros Hrun Hr Hle.
  destruct (do_while w cfg fuel appID init_progress s1) as [r1 s2] eqn:Hloop.
  assert (r1 ≠ Diverge) as Hr1.
  { intros ->. injection Hrun as <- _. done. }
  by rewrite (do_while_more_fuel _ _ _ _ _ _ _ Hloop Hr1 Hle).
Qed.

Lemma for_apps_more_fuel fuel fuel' ids s r s' :
  for_apps w cfg fuel ids s = (r, s') →
  r ≠ Diverge →
  (fuel ≤ fuel')%nat →
  for_apps w cfg fuel' ids s = (r, s').
Proof.
  revert s. induction ids as [|appID rest IH]; intros s; simpl; [done|].
  rewrite !M_bind_run. intros Hrun Hr Hle.
  destruct (fetch_app w cfg fuel appID s) as [r1 s1] eqn:Happ.
  assert (r1 ≠ Diverge) as Hr1.
  { intros ->. injection Hrun as <- _. done. }
  rewrite (fetch_app_more_fuel _ _ _ _ _ _ Happ Hr1 Hle).
  destruct r1 as [[]| |]; [by apply IH|done..].
Qed.

(** What the loop does from a state at the head of its body, it does
    when run from its entry. *)
Lemma do_while_resume appID s0 p t :
  loop_head w cfg appID s0 p t →
  ∀ fuel r t',
    do_while w cfg fuel appID p t = (r, t') →
    ∃ fuel', do_while w cfg fuel' appID init_progress s0 = (r, t').
Proof.
  induction 1 as [|p s p' s' _ IH Hrun Htest]; intros fuel r t' Hloop;
    [eauto|].
  apply (IH (S fuel)). rewrite (do_while_pass _ _ _ _ _ _ _ _ Hrun).
  by rewrite bool_decide_eq_true_2.
Qed.

End Fuel.

(** ** An item without description *)

Section MissingDescription.
Context (w : World) (cfg : Config).

(** A pass whose page cannot be turned into a batch throws after the
    body has been read, before anything is handed to the store. *)
Lemma iteration_batch_throws appID p s r page e :
  server w (awaits s) (page_request appID p) = Replied r →
  status r = 200 →
  body r = BodyPage page →
  success page = true →
  build_bulk cfg (results page) = Throw e →
  iteration w cfg appID p s =
    (Throw e, tick w 0 (requested w (page_request appID p) s)).
Proof.
  intros Hr Hst Hb Hs Hbulk.
  unfold iteration, fetch, json, pushToDB, log, emit, await, throw, lift, ask,
    modify, mbind, M_bind, mret, M_ret; simpl.
  rewrite Hr. simpl.
  rewrite bool_decide_eq_false_2 by lia.
  rewrite bool_decide_eq_false_2 by (intros H; by apply H).
  rewrite Hb, Hs. simpl. by rewrite Hbulk.
Qed.

(** C10.  Let a page hold an item for which a property of
    [ITEM_PROPERTIES] on the whitelist is undefined at top level and
    whose [asset_description] is undefined too.  Then [pushToDB] throws a
    TypeError while it builds the batch and leaves the state as it was:
    no batch is executed.  When the page comes as a successful response
    in a state of an identifier's loop, the pass throws that error, the
    collection and the batches handed to the store are as before the
    pass, the loop of the identifier throws it, and the cycle in which
    this happens ends as a failed cycle: the error is caught and the
    watermark is not moved. *)
Theorem item_without_description_fails_page
    (items : list value) (item : value) (prop : string) :
  item ∈ items →
  prop ∈ ITEM_PROPERTIES →
  prop ∈ properties cfg →
  get_prop item prop = Done VUndef →
  get_prop item "asset_description" = Done VUndef →
  ∃ key,
    (∀ s, pushToDB w cfg items s = (Throw (TypeError key), s)) ∧
    ∀ appID s0 p t r page,
      loop_head w cfg appID s0 p t →
      server w (awaits t) (page_request appID p) = Replied r →
      status r = 200 →
      body r = BodyPage page →
      success page = true →
      results page = items →
      ∃ t',
        iteration w cfg appID p t = (Throw (TypeError key), t') ∧
        collection t' = collection t ∧
        batches (trace t') = batches (trace t) ∧
        (∃ n, ∀ fuel, (n ≤ fuel)%nat →
           do_while w cfg fuel appID init_progress s0
             = (Throw (TypeError key), t')) ∧
        ∀ fuel0 sc pre rest s1,
          apps cfg = pre ++ appID :: rest →
          for_apps w cfg fuel0 pre (cycle_started sc) = (Done tt, s1) →
          s0 = add_event (Logged Info (FetchingPrices appID)) s1 →
          ∃ n, ∀ fuel, (n ≤ fuel)%nat →
            updateMarketListingsData w cfg fuel sc
              = (Done tt, cycle_failed cfg (TypeError key) t') ∧
            lastUpdate (cycle_failed cfg (TypeError key) t') = lastUpdate sc ∧
            update_file (cycle_failed cfg (TypeError key) t') = update_file sc.
Proof.
  intros Hitem Hlisted Hwl Htop Hdescr.
  assert (resolve item prop = Throw (TypeError prop)) as Hres.
  { unfold resolve. rewrite Htop. simpl. by rewrite Hdescr. }
  destruct (build_op_throws cfg item prop _ Hlisted Hwl Hres) as [k Hop].
  destruct (build_bulk_throws cfg items item Hitem) as [key Hbulk]; [eauto|].
  exists key. split.
  { intros s. by rewrite pushToDB_run, Hbulk. }
  intros appID s0 p t r page Hhead Hr Hst Hb Hs <-.
  pose proof (iteration_batch_throws appID p t r page _ Hr Hst Hb Hs Hbulk)
    as Hrun.
  eexists. split; [exact Hrun|]. split; [done|]. split.
  { unfold batches. simpl. rewrite omap_app. simpl. by rewrite app_nil_r. }
  destruct (do_while_resume w cfg appID s0 p t Hhead 1 _ _
              (do_while_throw w cfg 0 _ _ _ _ _ Hrun)) as [n Hloop].
  split.
  { exists n. intros fuel Hfuel.
    by apply (do_while_more_fuel w cfg n fuel _ _ _ _ _ Hloop). }
  intros fuel0 sc pre rest s1 Happs Hpre ->.
  exists (n `max` fuel0)%nat. intros fuel Hfuel.
  assert (fetch_app w cfg fuel appID s1 =
          (Throw (TypeError key),
           tick w 0 (requested w (page_request appID p) t))) as Happ.
  { unfold fetch_app. rewrite M_bind_run. simpl. rewrite M_bind_run.
    rewrite (do_while_more_fuel w cfg n fuel _ _ _ _ _ Hloop); [done|done|lia]. }
  assert (fetchMarketData w cfg fuel (cycle_started sc) =
          (Throw (TypeError key),
           tick w 0 (requested w (page_request appID p) t))) as Hpass.
  { unfold fetchMarketData. rewrite Happs.
    eapply for_apps_short_circuit; [|exact Happ].
    apply (for_apps_more_fuel w cfg fuel0 fuel _ _ _ _ Hpre); [done|lia]. }
  split; [by apply cycle_run_failed|].
  pose proof (steady_for_apps w cfg fuel (apps cfg) (cycle_started sc)) as Hev.
  fold (fetchMarketData w cfg fuel) in Hev. rewrite Hpass in Hev.
  split; [exact (evolves_lastUpdate _ _ Hev)|exact (evolves_file _ _ Hev)].
Qed.

End MissingDescription.

Lemma item_without_description_fails_page_witness :
  let glove : value := VObj {[ "hash_name" := VStr "Glove Case";
                               "sell_price" := VNum 310 ]} in
  let w := calm_world (λ _ _, page_reply 2 [ak47; glove]) in
  let cfg := {| updateInterval := 1800000; apps := [730];
                properties := ["icon_url"] |} in
  let s3 := (updateMarketListingsData w cfg 1 (fresh 5000)).2 in
  (∃ key, pushToDB w cfg [ak47; glove] (fresh 5000)
            = (Throw (TypeError key), fresh 5000)) ∧
  (updateMarketListingsData w cfg 1 (fresh 5000)).1 = Done tt ∧
  collection s3 = [] ∧
  batches (trace s3) = [] ∧
  lastUpdate s3 = 0 ∧
  last (trace s3) = Some (Armed 1800000).
Proof.
  intros glove w cfg s3.
  destruct (item_without_description_fails_page w cfg [ak47; glove] glove
              "icon_url")
    as (key & Hpush & _);
    [apply list_elem_of_further, list_elem_of_here
    |apply (bool_decide_unpack _); by vm_compute
    |apply list_elem_of_here
    |reflexivity|reflexivity|].
  split; [exists key; apply Hpush|].
  subst s3. by vm_compute.
Defined.

(** ** A page without items *)

Section EmptyPage.
Context (w : World) (cfg : Config).

(** A pass whose page holds no item gets as far as [bulk.execute()],
    which the driver rejects for want of an operation. *)
Lemma iteration_empty_page appID p s r page :
  server w (awaits s) (page_request appID p) = Replied r →
  status r = 200 →
  body r = BodyPage page →
  success page = true →
  results page = [] →
  iteration w cfg appID p s =
    (Throw NoOperations,
     add_event (Executed [] false)
       (tick w 0 (tick w 0 (requested w (page_request appID p) s)))).
Proof.
  intros Hr Hst Hb Hs Hitems.
  unfold iteration, fetch, json, pushToDB, execute, log, emit, await, throw,
    lift, ask, modify, mbind, M_bind, mret, M_ret; simpl.
  rewrite Hr. simpl.
  rewrite bool_decide_eq_false_2 by lia.
  rewrite bool_decide_eq_false_2 by (intros H; by apply H).
  rewrite Hb, Hs. simpl. by rewrite Hitems.
Qed.

(** A pass that throws in a state of an identifier's loop makes the loop
    throw, and the cycle in which this happens fail. *)
Lemma failing_pass_fails_cycle appID s0 p t e t' :
  loop_head w cfg appID s0 p t →
  iteration w cfg appID p t = (Throw e, t') →
  (∃ n, ∀ fuel, (n ≤ fuel)%nat →
     do_while w cfg fuel appID init_progress s0 = (Throw e, t')) ∧
  ∀ fuel0 sc pre rest s1,
    apps cfg = pre ++ appID :: rest →
    for_apps w cfg fuel0 pre (cycle_started sc) = (Done tt, s1) →
    s0 = add_event (Logged Info (FetchingPrices appID)) s1 →
    ∃ n, ∀ fuel, (n ≤ fuel)%nat →
      updateMarketListingsData w cfg fuel sc = (Done tt, cycle_failed cfg e t') ∧
      lastUpdate (cycle_failed cfg e t') = lastUpdate sc ∧
      update_file (cycle_failed cfg e t') = update_file sc.
Proof.
  intros Hhead Hrun.
  destruct (do_while_resume w cfg appID s0 p t Hhead 1 _ _
              (do_while_throw w cfg 0 _ _ _ _ _ Hrun)) as [n Hloop].
  split.
  { exists n. intros fuel Hfuel.
    by apply (do_while_more_fuel w cfg n fuel _ _ _ _ _ Hloop). }
  intros fuel0 sc pre rest s1 Happs Hpre ->.
  exists (n `max` fuel0)%nat. intros fuel Hfuel.
  assert (fetch_app w cfg fuel appID s1 = (Throw e, t')) as Happ.
  { unfold fetch_app. rewrite M_bind_run. simpl. rewrite M_bind_run.
    rewrite (do_while_more_fuel w cfg n fuel _ _ _ _ _ Hloop); [done|done|lia]. }
  assert (fetchMarketData w cfg fuel (cycle_started sc) = (Throw e, t'))
    as Hpass.
  { unfold fetchMarketData. rewrite Happs.
    eapply for_apps_short_circuit; [|exact Happ].
    apply (for_apps_more_fuel w cfg fuel0 fuel _ _ _ _ Hpre); [done|lia]. }
  split; [by apply cycle_run_failed|].
  pose proof (steady_for_apps w cfg fuel (apps cfg) (cycle_started sc)) as Hev.
  fold (fetchMarketData w cfg fuel) in Hev. rewrite Hpass in Hev.
  split; [exact (evolves_lastUpdate _ _ Hev)|exact (evolves_file _ _ Hev)].
Qed.

(** C4, amended.  Let a successful response come, in a state of an
    identifier's loop, with a page that holds zero items, whatever
    [total_count] it reports and however far [fetched] is from it.
    [pushToDB] then calls [bulk.execute()] on a bulk to which no
    operation was added, which the driver rejects.  So the pass throws:
    the collection is as before, [fetched] has not moved and no page is
    logged; the loop of the identifier does not go on, whatever room it
    is given: it throws that error after this one request; and the cycle
    in which this happens ends as a failed cycle, the error caught and
    the watermark not moved. *)
Theorem empty_page_ends_loop_with_error
    (appID : Z) (s0 : Sys) (p : Progress) (s : Sys) (r : Response)
    (page : Page) :
  loop_head w cfg appID s0 p s →
  server w (awaits s) (page_request appID p) = Replied r →
  status r = 200 →
  body r = BodyPage page →
  success page = true →
  results page = [] →
  ∃ s',
    iteration w cfg appID p s = (Throw NoOperations, s') ∧
    collection s' = collection s ∧
    requests (trace s') = requests (trace s) ++ [page_request appID p] ∧
    fetched_counts (trace s') = fetched_counts (trace s) ∧
    (∀ fuel, do_while w cfg (S fuel) appID p s = (Throw NoOperations, s')) ∧
    (∃ n, ∀ fuel, (n ≤ fuel)%nat →
       do_while w cfg fuel appID init_progress s0
         = (Throw NoOperations, s')) ∧
    ∀ fuel0 sc pre rest s1,
      apps cfg = pre ++ appID :: rest →
      for_apps w cfg fuel0 pre (cycle_started sc) = (Done tt, s1) →
      s0 = add_event (Logged Info (FetchingPrices appID)) s1 →
      ∃ n, ∀ fuel, (n ≤ fuel)%nat →
        updateMarketListingsData w cfg fuel sc
          = (Done tt, cycle_failed cfg NoOperations s') ∧
        lastUpdate (cycle_failed cfg NoOperations s') = lastUpdate sc ∧
        update_file (cycle_failed cfg NoOperations s') = update_file sc.
Proof.
  intros Hhead Hr Hst Hb Hs Hitems.
  pose proof (iteration_empty_page appID p s r page Hr Hst Hb Hs Hitems)
    as Hrun.
  destruct (failing_pass_fails_cycle appID s0 p s _ _ Hhead Hrun)
    as [Hloop Hcycle].
  eexists. split; [exact Hrun|]. split; [done|]. split.
  { unfold requests. simpl. rewrite !omap_app. simpl.
    by rewrite app_nil_r. }
  split.
  { unfold fetched_counts. simpl. rewrite !omap_app. simpl.
    by rewrite !app_nil_r. }
  split; [|done].
  intros fuel. by apply do_while_throw.
Qed.

End EmptyPage.

(** With the server answering every request by an empty page that
    reports 250 items, the loop does not run on: it throws after one
    request, with room for one pass as with room for a thousand. *)
Lemma empty_page_does_not_loop :
  let w := calm_world (λ _ _, page_reply 250 []) in
  let run := do_while w readme_config 1000 578080 init_progress (fresh 0) in
  fetched init_progress < 250 ∧
  run.1 = Throw NoOperations ∧
  run.1 ≠ Diverge ∧
  requests (trace run.2) = [page_request 578080 init_progress] ∧
  do_while w readme_config 1 578080 init_progress (fresh 0) = run.
Proof. intros w run. repeat split; try done; by vm_compute. Qed.

Lemma empty_page_ends_loop_with_error_witness :
  let w := calm_world (λ _ req,
    if bool_decide (req_start req = 0) then page_reply 250 [ak47]
    else page_reply 250 []) in
  let p := {| pageIndex := 2; total := 250; fetched := 1 |} in
  let s := (iteration w readme_config 578080 init_progress (fresh 0)).2 in
  loop_head w readme_config 578080 (fresh 0) p s ∧
  (iteration w readme_config 578080 p s).1 = Throw NoOperations ∧
  fetched_counts (trace (iteration w readme_config 578080 p s).2) = [1] ∧
  (do_while w readme_config 5 578080 init_progress (fresh 0)).1
    = Throw NoOperations ∧
  (updateMarketListingsData w readme_config 5 (fresh 0)).1 = Done tt ∧
  lastUpdate (updateMarketListingsData w readme_config 5 (fresh 0)).2 = 0.
Proof.
  intros w p s.
  assert (loop_head w readme_config 578080 (fresh 0) p s) as Hhead.
  { apply (head_again w readme_config 578080 (fresh 0) init_progress (fresh 0));
      [constructor|by vm_compute|done]. }
  split; [exact Hhead|].
  destruct (empty_page_ends_loop_with_error w readme_config 578080 (fresh 0)
              p s {| status := 200;
                     body := BodyPage {| success := true; total_count := 250;
                                         results := [] |} |}
              {| success := true; total_count := 250; results := [] |} Hhead)
    as (s' & Hrun & _ & _ & Hcounts & _); try reflexivity.
  rewrite Hrun. simpl. split; [reflexivity|]. split; [|repeat split; by vm_compute].
  rewrite Hcounts. by vm_compute.
Defined.

(** ** The first run *)

Section Startup.
Context (w : World) (cfg : Config).

Lemma cycle_never_throws fuel s e s' :
  updateMarketListingsData w cfg fuel s ≠ (Throw e, s').
Proof.
  destruct (fetchMarketData w cfg fuel (cycle_started s)) as [[[]| |] s2]
    eqn:Hpass.
  - by rewrite (cycle_run_completed _ _ _ _ _ Hpass).
  - by rewrite (cycle_run_failed _ _ _ _ _ _ Hpass).
  - by rewrite (cycle_run_diverge _ _ _ _ _ Hpass).
Qed.

Lemma first_run_unfold fuel s :
  first_run w cfg fuel s =
    if bool_decide (clock s - lastUpdate s >= updateInterval cfg)
    then updateMarketListingsData w cfg fuel s
    else (Done tt, add_event (Armed (updateInterval cfg - (clock s - lastUpdate s))) s).
Proof.
  unfold first_run, ask, arm, emit, modify. rewrite !M_bind_run.
  by case_bool_decide.
Qed.

(** What [readLastUpdateTime] and [connectToDB] leave when they succeed:
    the watermark of the file, or 0 when there was no file. *)
Lemma loaded_watermark s s1 :
  (readLastUpdateTime w;; connectToDB w) s = (Done tt, s1) →
  lastUpdate s1 = file_watermark (update_file s).
Proof.
  unfold readLastUpdateTime, connectToDB, writeFileSync, log, emit, await,
    throw, ask, modify, mbind, M_bind; simpl.
  destruct (update_file s) as [[t|]|]; simpl; [|done|].
  - case_bool_decide; simpl; [|destruct (valid_time t); simpl; [|done]];
      destruct (db_connects w); simpl; intros [= <-]; done.
  - destruct (fs_writes w (awaits s)); simpl; [|done].
    destruct (db_connects w); simpl; intros [= <-]; done.
Qed.

(** A world where the system clock stands one minute after the epoch
    when the process starts for the first time, with the interval of the
    README: the first cycle does not run, a timer of 29 minutes is
    armed. *)
Lemma first_run_waits_on_early_clock :
  let w0 := calm_world (λ _ _, page_reply 1 [ak47]) in
  let s1 := (readLastUpdateTime w0;; connectToDB w0) (fresh 60000) in
  s1.1 = Done tt ∧
  lastUpdate s1.2 = 0 ∧
  first_run w0 readme_config 5 s1.2
    = (Done tt, add_event (Armed 1740000) s1.2) ∧
  first_run w0 readme_config 5 s1.2
    ≠ updateMarketListingsData w0 readme_config 5 s1.2 ∧
  requests (trace (start w0 readme_config 5 (fresh 60000)).2) = [] ∧
  last (trace (start w0 readme_config 5 (fresh 60000)).2)
    = Some (Armed 1740000).
Proof.
  intros w0 s1. repeat split; try reflexivity.
  intros Heq. apply (f_equal (λ r, length (trace r.2))) in Heq.
  revert Heq. by vm_compute.
Qed.

(** C8, amended.  With [delta] the current time minus the watermark
    loaded at start: if [delta >= updateInterval] the first cycle runs
    at once, in the very state the start-up left; otherwise nothing is
    done but to arm one timer, for exactly [updateInterval - delta].
    When the watermark is 0 (never run) the first cycle runs at once
    provided the current epoch time is at least [updateInterval].  The
    watermark is the one [readLastUpdateTime] loaded: the content of the
    file, 0 without a file.  (A start-up that throws, as it does on a
    file that holds no valid time, does not get to the first run.) *)
Theorem first_run_now_or_after_remainder (fuel : nat) (s : Sys) :
  let delta := clock s - lastUpdate s in
  (delta >= updateInterval cfg →
     first_run w cfg fuel s = updateMarketListingsData w cfg fuel s) ∧
  (delta < updateInterval cfg →
     first_run w cfg fuel s =
       (Done tt, add_event (Armed (updateInterval cfg - delta)) s)) ∧
  (lastUpdate s = 0 → updateInterval cfg ≤ clock s →
     first_run w cfg fuel s = updateMarketListingsData w cfg fuel s) ∧
  (∀ s0, (readLastUpdateTime w;; connectToDB w) s0 = (Done tt, s) →
     start w cfg fuel s0 = first_run w cfg fuel s ∧
     lastUpdate s = file_watermark (update_file s0)).
Proof.
  intros delta. subst delta. rewrite first_run_unfold.
  split; [|split; [|split]].
  - intros Hdue. by rewrite bool_decide_eq_true_2.
  - intros Hearly. by rewrite bool_decide_eq_false_2 by lia.
  - intros Hnever Hold. rewrite bool_decide_eq_true_2; [done|lia].
  - intros s0 Hload. split; [|by apply loaded_watermark].
    unfold start, try_catch.
    rewrite <- first_run_unfold.
    assert ((readLastUpdateTime w;; connectToDB w;; first_run w cfg fuel) s0
            = first_run w cfg fuel s) as ->.
    { revert Hload. rewrite !M_bind_run.
      destruct (readLastUpdateTime w s0) as [[[]| |] s1]; [|done..].
      rewrite !M_bind_run.
      destruct (connectToDB w s1) as [[[]| |] s2]; [|done..].
      by intros [= ->]. }
    destruct (first_run w cfg fuel s) as [[[]| |] s'] eqn:Hfirst; try done.
    exfalso. revert Hfirst. rewrite first_run_unfold.
    case_bool_decide; [apply cycle_never_throws|done].
Qed.

End Startup.

(** A first start at a current date, with one listing on the market: the
    whole trace of the process up to the arming of the second cycle (the
    batch handed to the store left out). *)
Example first_start_trace :
  let w := calm_world (λ _ _, page_reply 1 [ak47]) in
  let r := start w readme_config 2 (fresh 1700000000000) in
  r.1 = Done tt ∧
  lastUpdate r.2 = 1700000000000 ∧
  update_file r.2 = Some (Number 1700000000000) ∧
  length (collection r.2) = 1%nat ∧
  omap (λ ev, match ev with Executed _ _ => None | _ => Some ev end)
       (trace r.2) =
    [ Logged Info ReadingLastUpdate;
      WroteFile 0 true;
      Logged Info NoUpdateInformation;
      Logged Info ConnectingToDatabase;
      Logged Info ConnectedToDatabase;
      Logged Info StartingPriceUpdate;
      Logged Info (FetchingPrices 578080);
      Requested {| req_appid := 578080; req_start := 0; req_count := 100 |};
      Logged Info (FetchedItems 1 1 1);
      Logged Info (FetchedAll 578080);
      Logged Info WritingLastUpdate;
      WroteFile 1700000000000 true;
      Logged Info PriceUpdateComplete;
      Armed 1800000 ].
Proof. by vm_compute. Qed.

Lemma first_run_now_or_after_remainder_witness :
  let w := calm_world (λ _ _, page_reply 1 [ak47]) in
  let s := (readLastUpdateTime w;; connectToDB w) (fresh 1700000000000) in
  lastUpdate s.2 = 0 ∧
  first_run w readme_config 5 s.2
    = updateMarketListingsData w readme_config 5 s.2 ∧
  requests (trace (start w readme_config 5 (fresh 1700000000000)).2)
    = [page_request 578080 init_progress].
Proof.
  intros w s.
  destruct (first_run_now_or_after_remainder w readme_config 5 s.2)
    as (_ & _ & Hnever & _).
  split; [reflexivity|]. split; [|reflexivity].
  apply Hnever; [reflexivity|by vm_compute].
Defined.

(** ** The rate limiter *)

Module RateLimiterFacts.
Import RateLimiter.

Lemma spaced_snoc interval log call now :
  spaced interval log →
  (∀ a, last log = Some a → a.2 + interval ≤ now) →
  spaced interval (log ++ [(call, now)]).
Proof.
  intros Hlog Hlast i a b Ha Hb.
  destruct (decide (S i < length log)%nat) as [Hin|Hout].
  - rewrite lookup_app_l in Ha, Hb by lia. by eapply Hlog.
  - assert (S i = length log) as Hi.
    { apply lookup_lt_Some in Hb. rewrite length_app in Hb. simpl in Hb. lia. }
    rewrite lookup_app_l in Ha by lia.
    rewrite lookup_app_r, Hi, Nat.sub_diag in Hb by lia.
    injection Hb as <-. simpl. apply Hlast.
    rewrite last_lookup. rewrite <- Hi. exact Ha.
Qed.

Lemma sound_idle interval : sound interval idle.
Proof. split; [by intros i a b ?|done]. Qed.

Lemma sound_enqueue interval call q :
  sound interval q → sound interval (enqueue call q).
Proof. by intros []. Qed.

Lemma sound_drain interval now q :
  sound interval q → sound interval (drain interval now q).
Proof.
  intros [Hspaced Hnext]. unfold drain.
  destruct (pending q) as [|call rest]; [done|].
  destruct (may_start now q) eqn:Hmay; [|done].
  split; simpl.
  - apply spaced_snoc; [done|]. intros a Ha.
    revert Hmay. unfold may_start. rewrite (Hnext a Ha).
    by intros ?%bool_decide_eq_true_1.
  - intros a. rewrite last_snoc. by intros [= <-].
Qed.

Lemma sound_step interval q i :
  sound interval q → sound interval (step interval q i).
Proof.
  destruct i; simpl; auto using sound_drain, sound_enqueue.
Qed.

Lemma sound_foldl interval inputs q :
  sound interval q → sound interval (foldl (step interval) q inputs).
Proof.
  revert q. induction inputs as [|i inputs IH]; intros q Hq; simpl; [done|].
  by apply IH, sound_step.
Qed.

(** The queue hands out calls in the order it got them. *)
Lemma drain_order interval now q :
  (started (drain interval now q)).*1 ++ pending (drain interval now q)
    = (started q).*1 ++ pending q.
Proof.
  unfold drain. destruct (pending q) as [|call rest] eqn:Hp;
    [by rewrite Hp|].
  destruct (may_start now q); [|by rewrite Hp].
  simpl. by rewrite fmap_app, <- app_assoc.
Qed.

Lemma foldl_order interval inputs q :
  (started (foldl (step interval) q inputs)).*1
    ++ pending (foldl (step interval) q inputs)
  = (started q).*1 ++ pending q ++ submitted inputs.
Proof.
  revert q. induction inputs as [|i inputs IH]; intros q; simpl.
  { by rewrite app_nil_r. }
  rewrite IH. destruct i as [call now|now]; simpl.
  - rewrite app_assoc, (drain_order interval now (enqueue call q)). simpl.
    by rewrite <- !app_assoc.
  - by rewrite app_assoc, drain_order, <- app_assoc.
Qed.

(** C9.  For every sequence of submissions and timer firings, at
    whatever times: the calls the limiter has started are, in the order
    of their starts, the first of the calls submitted in the order of
    submission (the others are still pending, in that order); and the
    starts of two consecutive dispatches are at least the interval
    apart, which for the queue of [index.js], built with
    [REQUEST_INTERVAL], is 10000 ms. *)
Theorem dispatches_in_order_and_spaced (interval : Z) (inputs : list input) :
  let q := run interval inputs in
  (started q).*1 ++ pending q = submitted inputs ∧
  (started q).*1 `prefix_of` submitted inputs ∧
  spaced interval (started q) ∧
  (interval = REQUEST_INTERVAL →
   ∀ i a b, started q !! i = Some a → started q !! S i = Some b →
            b.2 - a.2 >= 10000).
Proof.
  intros q. subst q. unfold run.
  pose proof (foldl_order interval inputs idle) as Horder. simpl in Horder.
  pose proof (sound_foldl interval inputs idle (sound_idle interval))
    as [Hspaced _].
  split; [done|]. split; [by eexists|]. split; [done|].
  intros -> i a b Ha Hb. specialize (Hspaced i a b Ha Hb).
  unfold REQUEST_INTERVAL in Hspaced. lia.
Qed.

Lemma dispatches_in_order_and_spaced_witness :
  let q := run REQUEST_INTERVAL
             [Submit 1 0; Submit 2 100; Submit 3 200; Timer 5000;
              Timer 10000; Timer 12000; Submit 4 30000; Timer 30001] in
  started q = [(1%nat, 0); (2%nat, 10000); (3%nat, 30000)] ∧
  pending q = [4%nat] ∧
  spaced 10000 (started q).
Proof.
  intros q. split; [reflexivity|]. split; [reflexivity|].
  exact (proj1 (proj2 (proj2 (dispatches_in_order_and_spaced REQUEST_INTERVAL
    [Submit 1 0; Submit 2 100; Submit 3 200; Timer 5000;
     Timer 10000; Timer 12000; Submit 4 30000; Timer 30001])))).
Defined.

End RateLimiterFacts.

(** * Further properties *)

(** ** The store under upserts *)

Lemma matches_exclusive h h' d :
  matches h d = true → matches h' d = true → h = h'.
Proof.
  unfold matches. destruct (d !! "hash_name") as [x|]; [|done].
  intros <-%value_eqb_spec <-%value_eqb_spec. done.
Qed.

Lemma matches_key h d : matches h d = true ↔ d !! "hash_name" = Some h.
Proof.
  unfold matches. destruct (d !! "hash_name") as [x|]; [|done].
  rewrite value_eqb_spec. split; congruence.
Qed.

Lemma matches_union h toSet d :
  toSet !! "hash_name" = None → matches h (toSet ∪ d) = matches h d.
Proof. intros Hkey. unfold matches. by rewrite lookup_union_r. Qed.

Lemma matches_added h h' toSet :
  toSet !! "hash_name" = None →
  matches h' (toSet ∪ {[ "hash_name" := h ]}) = value_eqb h h'.
Proof.
  intros Hkey. unfold matches. by rewrite lookup_union_r, lookup_singleton_eq.
Qed.

(** The two ways an upsert goes. *)
Lemma upsert_found h toSet c i d :
  first_match h c i d → upsert h toSet c = <[i := toSet ∪ d]> c.
Proof.
  revert i. induction c as [|d0 c IH]; intros i (Hi & Hm & Hfirst); [done|].
  simpl. destruct i as [|i]; simpl in *.
  - injection Hi as ->. by rewrite Hm.
  - rewrite (Hfirst 0%nat d0) by (done || lia). f_equal. apply IH.
    split; [done|]. split; [done|]. intros j d' Hj Hd'.
    apply (Hfirst (S j) d'); [lia|done].
Qed.

Lemma upsert_fresh h toSet c :
  Forall (λ d, matches h d = false) c →
  upsert h toSet c = c ++ [toSet ∪ {[ "hash_name" := h ]}].
Proof.
  induction 1 as [|d c Hd _ IH]; simpl; [done|]. by rewrite Hd, IH.
Qed.

Lemma upsert_cases h c :
  (∃ i d, first_match h c i d) ∨ Forall (λ d, matches h d = false) c.
Proof.
  induction c as [|d c IH]; [by right|].
  destruct (matches h d) eqn:Hm.
  - left. exists 0%nat, d. split; [done|]. split; [done|]. intros j d' Hj. lia.
  - destruct IH as [(i & d1 & Hi & Hm1 & Hfirst)|Hnone].
    + left. exists (S i), d1. split; [done|]. split; [done|].
      intros [|j] d' Hj; simpl; [by intros [= <-]|].
      apply Hfirst. lia.
    + right. by constructor.
Qed.

(** An upsert changes no key; it adds the key of its filter when no
    document holds it. *)
Lemma keys_upsert h toSet c :
  toSet !! "hash_name" = None →
  keys (upsert h toSet c) = keys c ∨
  (keys (upsert h toSet c) = keys c ++ [Some h] ∧ Some h ∉ keys c).
Proof.
  intros Hkey. destruct (upsert_cases h c) as [(i & d & Hm)|Hnone].
  - left. rewrite (upsert_found _ _ _ _ _ Hm). destruct Hm as (Hi & _ & _).
    unfold keys. rewrite list_fmap_insert. apply list_insert_id.
    rewrite list_lookup_fmap, Hi. simpl. by rewrite lookup_union_r.
  - right. rewrite (upsert_fresh _ _ _ Hnone). split.
    + unfold keys. rewrite fmap_app. simpl.
      by rewrite lookup_union_r, lookup_singleton_eq.
    + intros (d & Hd & Hin)%list_elem_of_fmap.
      rewrite Forall_forall in Hnone. specialize (Hnone d Hin).
      symmetry in Hd. apply matches_key in Hd. congruence.
Qed.

Lemma one_per_key_upsert h toSet c :
  toSet !! "hash_name" = None →
  one_per_key c → one_per_key (upsert h toSet c).
Proof.
  intros Hkey Hc. unfold one_per_key.
  destruct (keys_upsert h toSet c Hkey) as [->|[-> Hnew]]; [done|].
  intros i j k Hi Hj.
  destruct (decide (i < length (keys c))%nat) as [Hil|Hil];
    destruct (decide (j < length (keys c))%nat) as [Hjl|Hjl].
  - rewrite lookup_app_l in Hi, Hj by done. by eapply Hc.
  - rewrite lookup_app_l in Hi by done. rewrite lookup_app_r in Hj by lia.
    destruct (j - length (keys c))%nat; [|done]. injection Hj as <-.
    destruct Hnew. by eapply list_elem_of_lookup_2.
  - rewrite lookup_app_l in Hj by done. rewrite lookup_app_r in Hi by lia.
    destruct (i - length (keys c))%nat; [|done]. injection Hi as <-.
    destruct Hnew. by eapply list_elem_of_lookup_2.
  - apply lookup_lt_Some in Hi, Hj. rewrite length_app in Hi, Hj.
    simpl in *. lia.
Qed.

(** Upserting twice is upserting once. *)
Lemma absorbed_upsert h toSet c :
  toSet !! "hash_name" = None → absorbed h toSet (upsert h toSet c).
Proof.
  intros Hkey. destruct (upsert_cases h c) as [(i & d & Hm)|Hnone].
  - rewrite (upsert_found _ _ _ _ _ Hm). destruct Hm as (Hi & Hm & Hfirst).
    exists i, (toSet ∪ d). split; [split; [|split]|].
    + apply list_lookup_insert_eq. by eapply lookup_lt_Some.
    + by rewrite matches_union.
    + intros j d' Hj. rewrite list_lookup_insert_ne by lia. by apply Hfirst.
    + by rewrite (assoc_L (∪)), (idemp_L (∪)).
  - rewrite (upsert_fresh _ _ _ Hnone).
    exists (length c), (toSet ∪ {[ "hash_name" := h ]}).
    split; [split; [|split]|].
    + by rewrite lookup_app_r, Nat.sub_diag.
    + rewrite matches_added by done. apply value_eqb_refl.
    + intros j d' Hj. rewrite lookup_app_l by done. intros Hd'.
      rewrite Forall_forall in Hnone. apply Hnone.
      by eapply list_elem_of_lookup_2.
    + by rewrite (assoc_L (∪)), (idemp_L (∪)).
Qed.

Lemma upsert_absorbed h toSet c :
  absorbed h toSet c → upsert h toSet c = c.
Proof.
  intros (i & d & Hm & Hsame). rewrite (upsert_found _ _ _ _ _ Hm), Hsame.
  apply list_insert_id. by destruct Hm.
Qed.

(** An upsert under another key leaves an absorbed upsert absorbed. *)
Lemma absorbed_other h toSet h' toSet' c :
  toSet' !! "hash_name" = None →
  h ≠ h' →
  absorbed h toSet c → absorbed h toSet (upsert h' toSet' c).
Proof.
  intros Hkey Hne (i & d & (Hi & Hm & Hfirst) & Hsame).
  exists i, d. split; [|done].
  destruct (upsert_cases h' c) as [(i' & d' & Hm')|Hnone].
  - rewrite (upsert_found _ _ _ _ _ Hm'). destruct Hm' as (Hi' & Hm' & _).
    assert (i ≠ i') as Hii.
    { intros ->. rewrite Hi in Hi'. injection Hi' as ->.
      by destruct Hne; eapply matches_exclusive. }
    split; [by rewrite list_lookup_insert_ne|]. split; [done|].
    intros j d1 Hj. destruct (decide (j = i')) as [->|Hji].
    + rewrite list_lookup_insert_eq by (by eapply lookup_lt_Some).
      intros [= <-]. rewrite matches_union by done. by eapply Hfirst.
    + rewrite list_lookup_insert_ne by done. by apply Hfirst.
  - rewrite (upsert_fresh _ _ _ Hnone).
    pose proof (lookup_lt_Some _ _ _ Hi) as Hlt.
    split; [by rewrite lookup_app_l|]. split; [done|].
    intros j d1 Hj. rewrite lookup_app_l by lia. by apply Hfirst.
Qed.

Lemma absorbed_bulk_other h toSet ops c :
  Forall (λ op, op_set op !! "hash_name" = None ∧ op_hash_name op ≠ h) ops →
  absorbed h toSet c → absorbed h toSet (apply_bulk c ops).
Proof.
  unfold apply_bulk. intros Hops. revert c.
  induction Hops as [|op ops [Hkey Hne] _ IH]; intros c Habs; simpl; [done|].
  apply IH. by apply absorbed_other.
Qed.

Lemma apply_bulk_absorbs ops c :
  Forall (λ op, op_set op !! "hash_name" = None) ops →
  NoDup (op_hash_name <$> ops) →
  Forall (λ op, absorbed (op_hash_name op) (op_set op) (apply_bulk c ops)) ops.
Proof.
  unfold apply_bulk. intros Hops. revert c.
  induction Hops as [|op ops Hkey Hops IH]; intros c Hnodup; [constructor|].
  rewrite fmap_cons in Hnodup. apply NoDup_cons in Hnodup as [Hnew Hnodup].
  constructor; simpl; [|by apply IH].
  apply (absorbed_bulk_other _ _ ops); [|by apply absorbed_upsert].
  rewrite Forall_forall in Hops. apply Forall_forall. intros op' Hin.
  split; [by apply Hops|]. intros Heq. apply Hnew. rewrite <- Heq.
  by apply list_elem_of_fmap_2.
Qed.

Lemma apply_bulk_absorbed ops c :
  Forall (λ op, absorbed (op_hash_name op) (op_set op) c) ops →
  apply_bulk c ops = c.
Proof.
  unfold apply_bulk. induction 1 as [|op ops Hop _ IH]; simpl; [done|].
  unfold apply_op at 2. by rewrite (upsert_absorbed _ _ _ Hop).
Qed.

(** The operations of a batch never set the key. *)
Lemma build_bulk_no_key cfg items ops :
  build_bulk cfg items = Done ops →
  Forall (λ op, op_set op !! "hash_name" = None) ops.
Proof.
  intros Hrun. eapply Forall_impl; [exact (build_bulk_fields _ _ _ Hrun)|].
  intros op Hop. apply not_elem_of_dom. intros Hin.
  apply Hop in Hin as [?|[Hin _]]; [done|]. by apply hash_name_not_listed.
Qed.

(** ** A batch, document by document *)















(** ** Relations that every run carries *)

(** A reflexive and transitive relation on states that holds across each
    elementary step of the methods holds across every run of them, up to
    [start].  [ok_app] singles out the identifiers whose requests the
    relation admits. *)
Section Carried.
Context (w : World) (cfg : Config).
Context (ok_app : Z → Prop) (R : Sys → Sys → Prop).
Hypothesis R_refl : ∀ s, R s s.
Hypothesis R_trans : ∀ s1 s2 s3, R s1 s2 → R s2 s3 → R s1 s3.
Hypothesis R_log : ∀ lvl m s, R s (add_event (Logged lvl m) s).
Hypothesis R_request : ∀ appID p s,
  ok_app appID → R s (add_event (Requested (page_request appID p)) s).
Hypothesis R_slept : ∀ s, R s (add_event (Slept REQUEST_COOL_DOWN) s).
Hypothesis R_executed : ∀ items ops ok s,
  build_bulk cfg items = Done ops → R s (add_event (Executed ops ok) s).
Hypothesis R_tick : ∀ min s, R s (tick w min s).
Hypothesis R_batch : ∀ items ops s,
  build_bulk cfg items = Done ops →
  R s (set_collection (apply_bulk (collection s) ops) s).
Hypothesis R_wrote : ∀ t ok s, R s (add_event (WroteFile t ok) s).
Hypothesis R_armed : ∀ d s, R s (add_event (Armed d) s).
Hypothesis R_stamp : ∀ t s, R s (set_lastUpdate t s).
Hypothesis R_file : ∀ f s, R s (set_update_file f s).

Lemma carries_ret {A} (a : A) : carries R (mret a).
Proof. intros s. apply R_refl. Qed.

Lemma carries_throw {A} e : carries R (throw (A := A) e).
Proof. intros s. apply R_refl. Qed.

Lemma carries_lift {A} (r : outcome A) : carries R (lift r).
Proof. intros s. apply R_refl. Qed.

Lemma carries_ask {A} (f : Sys → A) : carries R (ask f).
Proof. intros s. apply R_refl. Qed.

Lemma carries_modify f : (∀ s, R s (f s)) → carries R (modify f).
Proof. intros Hf s. apply Hf. Qed.

Lemma carries_bind {A B} (m : M A) (f : A → M B) :
  carries R m → (∀ a, carries R (f a)) → carries R (m ≫= f).
Proof.
  intros Hm Hf s. specialize (Hm s). rewrite M_bind_run.
  destruct (m s) as [[a| |] s1]; simpl in *; [|done|done].
  eapply R_trans; [done|apply Hf].
Qed.

Lemma carries_try_catch {A} (body : M A) handler :
  carries R body → (∀ e, carries R (handler e)) →
  carries R (try_catch body handler).
Proof.
  intros Hb Hh s. specialize (Hb s). unfold try_catch.
  destruct (body s) as [[a| |] s1]; simpl in *; [done| |done].
  eapply R_trans; [done|apply Hh].
Qed.

Lemma carries_log lvl m : carries R (log lvl m).
Proof. apply carries_modify, R_log. Qed.

Lemma carries_await min : carries R (await w min).
Proof. apply carries_modify, R_tick. Qed.

Ltac carry_step :=
  match goal with
  | |- carries _ (_ ≫= _) => apply carries_bind; [|intros ?]
  | |- carries _ (try_catch _ _) => apply carries_try_catch; [|intros ?]
  | |- carries _ (if ?b then _ else _) => destruct b
  | |- carries _ (match ?x with _ => _ end) => destruct x
  | |- carries _ (mret _) => apply carries_ret
  | |- carries _ (throw _) => apply carries_throw
  | |- carries _ (lift _) => apply carries_lift
  | |- carries _ (ask _) => apply carries_ask
  | |- carries _ (log _ _) => apply carries_log
  | |- carries _ (await _ _) => apply carries_await
  | |- carries _ _ => solve [auto]
  end.
Ltac carry_steps := repeat carry_step.

Lemma carries_fetch appID p :
  ok_app appID → carries R (fetch w (page_request appID p)).
Proof.
  intros Hin. unfold fetch. carry_steps.
  apply carries_modify. intros s. by apply R_request.
Qed.

Lemma carries_json r : carries R (json w r).
Proof. unfold json. carry_steps. Qed.

Lemma carries_sleep : carries R (sleep w REQUEST_COOL_DOWN).
Proof. unfold sleep. carry_steps. Qed.

Lemma carries_pushToDB items : carries R (pushToDB w cfg items).
Proof.
  intros s. rewrite pushToDB_run.
  destruct (build_bulk cfg items) as [ops| |] eqn:Hops; simpl;
    [|apply R_refl..].
  assert (R s (add_event (Executed ops (accepted w ops s))
                 (tick w 0 s))) as Hsent.
  { eapply R_trans; [apply R_tick|]. by eapply R_executed. }
  unfold executed. destruct (accepted w ops s); [|done].
  eapply R_trans; [exact Hsent|].
  exact (R_batch items ops
           (add_event (Executed ops true) (tick w 0 s)) Hops).
Qed.

Lemma carries_answered p r : carries R (answered w cfg p r).
Proof.
  unfold answered.
  pose proof carries_json. pose proof carries_sleep.
  pose proof carries_pushToDB. carry_steps.
Qed.

Lemma carries_iteration appID p :
  ok_app appID → carries R (iteration w cfg appID p).
Proof.
  intros Hin. apply carries_bind; [by apply carries_fetch|].
  intros r. apply carries_answered.
Qed.

Lemma carries_do_while fuel appID p :
  ok_app appID → carries R (do_while w cfg fuel appID p).
Proof.
  intros Hin. revert p. induction fuel as [|fuel IH]; intros p; simpl;
    [carry_steps|].
  apply carries_bind; [by apply carries_iteration|intros p'].
  case_bool_decide; [apply IH|carry_steps].
Qed.

Lemma carries_fetch_app fuel appID :
  ok_app appID → carries R (fetch_app w cfg fuel appID).
Proof.
  intros Hin. unfold fetch_app.
  pose proof (carries_do_while fuel appID init_progress Hin). carry_steps.
Qed.

Lemma carries_for_apps fuel ids :
  Forall ok_app ids → carries R (for_apps w cfg fuel ids).
Proof.
  induction 1 as [|appID rest Hok _ IH]; simpl; [carry_steps|].
  apply carries_bind; [by apply carries_fetch_app|by intros _].
Qed.

Hypothesis apps_ok : Forall ok_app (apps cfg).

Lemma carries_fetchMarketData fuel : carries R (fetchMarketData w cfg fuel).
Proof. by apply carries_for_apps. Qed.

Lemma carries_writeLastUpdateTime : carries R (writeLastUpdateTime w).
Proof.
  unfold writeLastUpdateTime, writeFileSync. carry_steps;
    apply carries_modify; auto.
Qed.

Lemma carries_updateMarketListingsData fuel :
  carries R (updateMarketListingsData w cfg fuel).
Proof.
  unfold updateMarketListingsData, stamp, arm.
  pose proof (carries_fetchMarketData fuel).
  pose proof carries_writeLastUpdateTime.
  carry_steps; apply carries_modify; auto.
Qed.

Lemma carries_readLastUpdateTime : carries R (readLastUpdateTime w).
Proof.
  unfold readLastUpdateTime, writeFileSync. carry_steps;
    apply carries_modify; auto.
Qed.

Lemma carries_connectToDB : carries R (connectToDB w).
Proof. unfold connectToDB. carry_steps. Qed.

Lemma carries_first_run fuel : carries R (first_run w cfg fuel).
Proof.
  unfold first_run, arm. pose proof (carries_updateMarketListingsData fuel).
  carry_steps. apply carries_modify. auto.
Qed.

Lemma carries_start fuel : carries R (start w cfg fuel).
Proof.
  unfold start. pose proof (carries_first_run fuel).
  pose proof carries_readLastUpdateTime. pose proof carries_connectToDB.
  carry_steps.
Qed.

End Carried.

(** ** The store across whole runs *)

(** A reflexive and transitive relation on collections that holds across
    each batch holds across every run of a cycle and of [start]. *)
Section StoreRuns.
Context (w : World) (cfg : Config) (Q : list doc → list doc → Prop).
Hypothesis Q_refl : ∀ c, Q c c.
Hypothesis Q_trans : ∀ c1 c2 c3, Q c1 c2 → Q c2 c3 → Q c1 c3.
Hypothesis Q_batch : ∀ items ops c,
  build_bulk cfg items = Done ops → Q c (apply_bulk c ops).

Lemma store_cycle fuel s :
  Q (collection s) (collection (updateMarketListingsData w cfg fuel s).2).
Proof.
  apply (carries_updateMarketListingsData w cfg (λ _, True)
           (λ s s', Q (collection s) (collection s')));
    try (by intros; apply Q_refl); try (by intros; eapply Q_trans).
  - intros items ops s1 Hops. by eapply Q_batch.
  - by apply Forall_true.
Qed.

Lemma store_start fuel s :
  Q (collection s) (collection (start w cfg fuel s).2).
Proof.
  apply (carries_start w cfg (λ _, True)
           (λ s s', Q (collection s) (collection s')));
    try (by intros; apply Q_refl); try (by intros; eapply Q_trans).
  - intros items ops s1 Hops. by eapply Q_batch.
  - by apply Forall_true.
Qed.

End StoreRuns.

Lemma keeps_foreign_refl cfg c : keeps_foreign cfg c c.
Proof. intros i d Hd. eauto. Qed.

Lemma keeps_foreign_trans cfg c1 c2 c3 :
  keeps_foreign cfg c1 c2 → keeps_foreign cfg c2 c3 → keeps_foreign cfg c1 c3.
Proof.
  intros H12 H23 i d Hd.
  destruct (H12 i d Hd) as (d2 & Hd2 & Hf2).
  destruct (H23 i d2 Hd2) as (d3 & Hd3 & Hf3).
  exists d3. split; [done|]. intros f Hf. by rewrite Hf3, Hf2.
Qed.

Lemma keeps_foreign_batch cfg items ops c :
  build_bulk cfg items = Done ops → keeps_foreign cfg c (apply_bulk c ops).
Proof.
  intros Hops i d Hd. apply (apply_bulk_frame (written cfg) ops); [|done].
  eapply Forall_impl; [exact (build_bulk_fields _ _ _ Hops)|].
  intros op Hop f. by apply Hop.
Qed.

Lemma one_per_key_batch cfg items ops c :
  build_bulk cfg items = Done ops →
  one_per_key c → one_per_key (apply_bulk c ops).
Proof.
  intros Hops%build_bulk_no_key. unfold apply_bulk. revert c.
  induction Hops as [|op ops Hkey _ IH]; intros c Hc; [done|].
  simpl. apply IH. by apply one_per_key_upsert.
Qed.

Lemma shaped_upsert cfg h (toSet : doc) c :
  (∀ f, f ∈ dom toSet ↔ written cfg f) →
  Forall (shaped cfg) c → Forall (shaped cfg) (upsert h toSet c).
Proof.
  intros HtoSet Hc. apply Forall_lookup. intros i d' Hd' f.
  rewrite Forall_lookup in Hc.
  apply upsert_lookup in Hd' as [(d & Hd & [->| ->])|[_ ->]].
  - by apply (Hc i).
  - rewrite dom_union_L, elem_of_union, HtoSet, (Hc i d Hd f). tauto.
  - rewrite dom_union_L, elem_of_union, HtoSet, dom_singleton_L,
      elem_of_singleton. tauto.
Qed.

Lemma shaped_batch cfg items ops c :
  build_bulk cfg items = Done ops →
  Forall (shaped cfg) c → Forall (shaped cfg) (apply_bulk c ops).
Proof.
  intros Hops%build_bulk_fields. unfold apply_bulk. revert c.
  induction Hops as [|op ops Hop _ IH]; intros c Hc; [done|].
  simpl. apply IH. by apply shaped_upsert.
Qed.

(** X1.  Whatever the server, the store and the file system do, and
    whatever the outcome, a run of [start] and a run of a cycle leave
    every document that was in the collection at its place, and leave
    each of its fields as it was, the fields that [pushToDB] sets apart
    ([sell_price] and the names of [ITEM_PROPERTIES] that
    [config.properties] includes): no document is deleted or moved, and
    the key [hash_name] and the fields of other writers stay. *)
Theorem runs_keep_foreign_fields
    (w : World) (cfg : Config) (fuel : nat) (s : Sys) :
  keeps_foreign cfg (collection s) (collection (start w cfg fuel s).2) ∧
  keeps_foreign cfg (collection s)
    (collection (updateMarketListingsData w cfg fuel s).2).
Proof.
  split.
  - apply store_start;
      eauto using keeps_foreign_refl, keeps_foreign_trans, keeps_foreign_batch.
  - apply store_cycle;
      eauto using keeps_foreign_refl, keeps_foreign_trans, keeps_foreign_batch.
Qed.

(** X2.  When no two documents of the collection hold the same
    [hash_name], this is still so after a run of [start] and after a
    run of a cycle, whatever the outcome: the upserts never add a second
    document for a key. *)
Theorem runs_keep_one_document_per_key
    (w : World) (cfg : Config) (fuel : nat) (s : Sys) :
  one_per_key (collection s) →
  one_per_key (collection (start w cfg fuel s).2) ∧
  one_per_key (collection (updateMarketListingsData w cfg fuel s).2).
Proof.
  intros Hs. split.
  - revert Hs. apply (store_start w cfg (λ c c', one_per_key c → one_per_key c'));
      eauto using one_per_key_batch.
  - revert Hs. apply (store_cycle w cfg (λ c c', one_per_key c → one_per_key c'));
      eauto using one_per_key_batch.
Qed.

Lemma runs_keep_one_document_per_key_witness :
  let w := calm_world (λ _ _, page_reply 2 [ak47; ak47]) in
  let s := fresh 1800000 in
  one_per_key (collection s) ∧
  one_per_key (collection (start w readme_config 5 s).2) ∧
  length (collection (start w readme_config 5 s).2) = 1%nat.
Proof.
  intros w s.
  assert (one_per_key (collection s)) as Hs.
  { intros i j h Hi. by destruct i. }
  split; [exact Hs|]. split; [|by vm_compute].
  exact (proj1 (runs_keep_one_document_per_key w readme_config 5 s Hs)).
Defined.

(** X3.  When every document of the collection holds exactly the fields
    [hash_name], [sell_price] and the names of [ITEM_PROPERTIES] that
    [config.properties] includes, this is still so after a run of
    [start] and after a run of a cycle, whatever the outcome; so it is
    in a collection that was empty when the observer first ran. *)
Theorem runs_keep_documents_shaped
    (w : World) (cfg : Config) (fuel : nat) (s : Sys) :
  Forall (shaped cfg) (collection s) →
  Forall (shaped cfg) (collection (start w cfg fuel s).2) ∧
  Forall (shaped cfg) (collection (updateMarketListingsData w cfg fuel s).2).
Proof.
  intros Hs. split.
  - revert Hs.
    apply (store_start w cfg
             (λ c c', Forall (shaped cfg) c → Forall (shaped cfg) c'));
      eauto using shaped_batch.
  - revert Hs.
    apply (store_cycle w cfg
             (λ c c', Forall (shaped cfg) c → Forall (shaped cfg) c'));
      eauto using shaped_batch.
Qed.

Lemma runs_keep_documents_shaped_witness :
  let w := calm_world (λ _ _, page_reply 1 [ak47]) in
  let cfg := {| updateInterval := 1800000; apps := [730];
                properties := ["name"; "note"] |} in
  let s := fresh 1800000 in
  Forall (shaped cfg) (collection s) ∧
  Forall (shaped cfg) (collection (start w cfg 5 s).2) ∧
  dom <$> collection (start w cfg 5 s).2
    = [({[ "hash_name"; "sell_price"; "name" ]} : gset string)].
Proof.
  intros w cfg s.
  assert (Forall (shaped cfg) (collection s)) as Hs by constructor.
  split; [exact Hs|]. split; [|by vm_compute].
  exact (proj1 (runs_keep_documents_shaped w cfg 5 s Hs)).
Defined.



(** ** The events of whole runs *)

Lemma extends_by_same P s s' : trace s' = trace s → extends_by P s s'.
Proof. intros Hsame. exists []. by rewrite app_nil_r. Qed.

Lemma extends_by_refl P s : extends_by P s s.
Proof. by apply extends_by_same. Qed.

Lemma extends_by_trans P s1 s2 s3 :
  extends_by P s1 s2 → extends_by P s2 s3 → extends_by P s1 s3.
Proof.
  intros (t1 & H1 & Ht1) (t2 & H2 & Ht2). exists (t1 ++ t2).
  split; [by rewrite H2, H1, app_assoc|by apply Forall_app].
Qed.

Lemma extends_by_event (P : event → Prop) ev s :
  P ev → extends_by P s (add_event ev s).
Proof. intros Hev. exists [ev]. split; [done|by constructor]. Qed.

Lemma extends_by_impl (P P' : event → Prop) s s' :
  (∀ ev, P ev → P' ev) → extends_by P s s' → extends_by P' s s'.
Proof.
  intros HP (t & Ht & HPt). exists t. split; [done|].
  by eapply Forall_impl.
Qed.

(** When each kind of event that a method adds satisfies [P], the trace
    grows by events that satisfy [P], whatever the outcome.  [ok_app]
    singles out the identifiers of the requests. *)
Section Events.
Context (w : World) (cfg : Config) (ok_app : Z → Prop) (P : event → Prop).
Hypothesis P_log : ∀ lvl m, P (Logged lvl m).
Hypothesis P_request : ∀ appID p,
  ok_app appID → P (Requested (page_request appID p)).
Hypothesis P_slept : P (Slept REQUEST_COOL_DOWN).
Hypothesis P_executed : ∀ items ops ok,
  build_bulk cfg items = Done ops → P (Executed ops ok).
Hypothesis P_wrote : ∀ t ok, P (WroteFile t ok).
Hypothesis P_armed : ∀ d, P (Armed d).

Ltac by_events lem :=
  apply lem;
  first [ by intros; apply extends_by_same
        | by intros; eapply extends_by_trans
        | by intros; apply extends_by_event; eauto
        | done ].

Lemma events_answered p r s : extends_by P s (answered w cfg p r s).2.
Proof. revert s. by_events (carries_answered w cfg (extends_by P)). Qed.

Lemma events_do_while fuel appID p s :
  ok_app appID → extends_by P s (do_while w cfg fuel appID p s).2.
Proof.
  intros Hok. revert s.
  by_events (carries_do_while w cfg ok_app (extends_by P)).
Qed.

Lemma events_for_apps fuel ids s :
  Forall ok_app ids → extends_by P s (for_apps w cfg fuel ids s).2.
Proof.
  intros Hok. revert s.
  by_events (carries_for_apps w cfg ok_app (extends_by P)).
Qed.

Hypothesis apps_ok : Forall ok_app (apps cfg).

Lemma events_cycle fuel s :
  extends_by P s (updateMarketListingsData w cfg fuel s).2.
Proof.
  revert s.
  by_events (carries_updateMarketListingsData w cfg ok_app (extends_by P)).
Qed.

Lemma events_start fuel s : extends_by P s (start w cfg fuel s).2.
Proof.
  revert s. by_events (carries_start w cfg ok_app (extends_by P)).
Qed.

End Events.

(** X5.  Whatever the outcome, the events that a run of [start] and a
    run of a cycle add to the trace are of these kinds only: log lines,
    requests for a configured identifier that ask for [PAGE_SIZE] = 100
    items, sleeps of [REQUEST_COOL_DOWN] = 30000 ms, batches built from a
    page by [pushToDB], writes of the watermark file, and timers. *)
Theorem runs_add_expected_events
    (w : World) (cfg : Config) (fuel : nat) (s : Sys) :
  PAGE_SIZE = 100 ∧ REQUEST_COOL_DOWN = 30000 ∧
  extends_by (expected cfg) s (start w cfg fuel s).2 ∧
  extends_by (expected cfg) s (updateMarketListingsData w cfg fuel s).2.
Proof.
  split; [done|]. split; [done|].
  assert (Forall (λ appID, appID ∈ apps cfg) (apps cfg)) as Happs.
  { by apply Forall_forall. }
  split.
  - apply (events_start w cfg (λ appID, appID ∈ apps cfg)); simpl; eauto.
  - apply (events_cycle w cfg (λ appID, appID ∈ apps cfg)); simpl; eauto.
Qed.
(** ** One pass, whatever its outcome *)

Lemma requests_app t t' : requests (t ++ t') = requests t ++ requests t'.
Proof. apply omap_app. Qed.

Lemma requests_first r t : requests (Requested r :: t) = r :: requests t.
Proof. done. Qed.

Lemma requests_loop_events ok t :
  Forall (loop_event ok) t → Forall ok (requests t).
Proof.
  induction 1 as [|ev t Hev _ IH]; [constructor|].
  destruct ev; simpl; try done. by constructor.
Qed.

Lemma timers_loop_events ok t : Forall (loop_event ok) t → timers t = [].
Proof. induction 1 as [|ev t Hev _ IH]; [done|]. by destruct ev. Qed.

Section Pass.
Context (w : World) (cfg : Config).

Lemma fetch_run req s :
  fetch w req s =
    (match server w (awaits s) req with
     | Unreachable => Throw NetworkError
     | Replied r => Done r
     end, requested w req s).
Proof.
  unfold fetch, ask, emit, await, modify, throw. rewrite !M_bind_run.
  by destruct (server w (awaits s) req).
Qed.

Lemma iteration_run appID p s :
  iteration w cfg appID p s =
    match server w (awaits s) (page_request appID p) with
    | Unreachable => (Throw NetworkError, requested w (page_request appID p) s)
    | Replied r => answered w cfg p r (requested w (page_request appID p) s)
    end.
Proof.
  change (iteration w cfg appID p)
    with (fetch w (page_request appID p) ≫= answered w cfg p).
  rewrite M_bind_run, fetch_run. by destruct (server _ _ _).
Qed.

(** A pass sends its request first, and no other. *)
Lemma iteration_trace appID p s :
  ∃ t, trace (iteration w cfg appID p s).2
         = trace s ++ Requested (page_request appID p) :: t ∧
       Forall (loop_event (λ _, False)) t.
Proof.
  rewrite iteration_run.
  destruct (server w (awaits s) (page_request appID p)) as [|r].
  { by exists []. }
  assert (extends_by (loop_event (λ _, False))
            (requested w (page_request appID p) s)
            (answered w cfg p r (requested w (page_request appID p) s)).2)
    as (t & Ht & HP) by (by apply events_answered).
  exists t. split; [|done]. rewrite Ht. simpl. by rewrite <- app_assoc.
Qed.

Lemma iteration_requests appID p s :
  requests (trace (iteration w cfg appID p s).2)
    = requests (trace s) ++ [page_request appID p].
Proof.
  destruct (iteration_trace appID p s) as (t & -> & Ht).
  apply requests_loop_events in Ht.
  assert (requests t = []) as Hnil.
  { destruct (requests t) as [|r rs]; [done|].
    by apply Forall_cons in Ht as [[] _]. }
  by rewrite requests_app, requests_first, Hnil.
Qed.

Lemma answered_returns p r s : (answered w cfg p r s).1 ≠ Diverge.
Proof.
  unfold answered. case_bool_decide; [done|]. case_bool_decide; [done|].
  rewrite M_bind_run. unfold json at 1, await, modify, throw.
  rewrite M_bind_run. simpl.
  destruct (body r) as [| |page]; simpl; [done|done|].
  destruct (success page); simpl; [|done].
  rewrite M_bind_run, pushToDB_run.
  destruct (build_bulk_returns cfg (results page)) as [[ops ->]|[key ->]];
    [|done].
  by destruct (accepted w ops _).
Qed.

Lemma iteration_returns appID p s : (iteration w cfg appID p s).1 ≠ Diverge.
Proof.
  rewrite iteration_run. destruct (server w _ _); [done|].
  apply answered_returns.
Qed.

(** A loop with a pass to go sends the request of its first pass first;
    its other requests are for the same identifier. *)
Lemma do_while_trace fuel appID p s :
  ∃ t, trace (do_while w cfg (S fuel) appID p s).2
         = trace s ++ Requested (page_request appID p) :: t ∧
       Forall (loop_event (λ r, req_appid r = appID)) t.
Proof.
  simpl. rewrite M_bind_run.
  destruct (iteration_trace appID p s) as (t & Ht & HP).
  assert (Forall (loop_event (λ r, req_appid r = appID)) t) as HP'.
  { eapply Forall_impl; [exact HP|]. by intros []. }
  destruct (iteration w cfg appID p s) as [[p'| |] s1]; simpl in *; eauto.
  case_bool_decide; simpl; [|eauto].
  assert (extends_by (loop_event (λ r, req_appid r = appID)) s1
            (do_while w cfg fuel appID p' s1).2) as (t' & Ht' & HP'').
  { apply (events_do_while w cfg (λ a, a = appID)); try done. }
  exists (t ++ t'). split; [|by apply Forall_app].
  by rewrite Ht', Ht, <- app_assoc.
Qed.

End Pass.
(** ** The fetch loop: further results *)

Lemma fetched_counts_app t t' :
  fetched_counts (t ++ t') = fetched_counts t ++ fetched_counts t'.
Proof. apply omap_app. Qed.

Lemma batches_app t t' : batches (t ++ t') = batches t ++ batches t'.
Proof. apply omap_app. Qed.

Lemma timers_app t t' : timers (t ++ t') = timers t ++ timers t'.
Proof. apply omap_app. Qed.

(** X6.  A pass that throws has sent exactly its one request (nothing is
    retried but status 429) and has logged no page.  Each error has its
    cause: [NetworkError] an unreachable server; [StatusError] a status
    other than 200 and 429, with the number of the page in hand;
    [JsonError], [EmptyResponse] and [PageUnsuccessful] a reply of
    status 200 whose body is no JSON, empty, or without [success]; a
    [TypeError] a batch that could not be built; [NoOperations] a page
    without items; [StoreError] a batch that the store refused.  No
    other error is thrown.  Unless the error is that of the store, the
    collection is as it was, and before [bulk.execute()] is reached
    nothing has been handed to the store. *)
Theorem failing_pass_has_one_cause
    (w : World) (cfg : Config) (appID : Z) (p : Progress) (s : Sys)
    (e : error) (s' : Sys) :
  iteration w cfg appID p s = (Throw e, s') →
  let req := page_request appID p in
  requests (trace s') = requests (trace s) ++ [req] ∧
  fetched_counts (trace s') = fetched_counts (trace s) ∧
  (e ≠ StoreError → collection s' = collection s) ∧
  (e ≠ StoreError → e ≠ NoOperations →
     batches (trace s') = batches (trace s)) ∧
  match e with
  | NetworkError => server w (awaits s) req = Unreachable
  | StatusError i st =>
      i = pageIndex p ∧ st ≠ 200 ∧ st ≠ 429 ∧
      ∃ r, server w (awaits s) req = Replied r ∧ status r = st
  | JsonError =>
      ∃ r, server w (awaits s) req = Replied r ∧ status r = 200 ∧
           body r = BodyInvalid
  | EmptyResponse =>
      ∃ r, server w (awaits s) req = Replied r ∧ status r = 200 ∧
           body r = BodyEmpty
  | PageUnsuccessful i =>
      i = pageIndex p ∧
      ∃ r page, server w (awaits s) req = Replied r ∧ status r = 200 ∧
                body r = BodyPage page ∧ success page = false
  | TypeError key =>
      ∃ r page, server w (awaits s) req = Replied r ∧ status r = 200 ∧
                body r = BodyPage page ∧ success page = true ∧
                build_bulk cfg (results page) = Throw (TypeError key)
  | NoOperations =>
      ∃ r page, server w (awaits s) req = Replied r ∧ status r = 200 ∧
                body r = BodyPage page ∧ success page = true ∧
                results page = [] ∧
                batches (trace s') = batches (trace s) ++ [[]]
  | StoreError =>
      ∃ r page ops, server w (awaits s) req = Replied r ∧ status r = 200 ∧
                    body r = BodyPage page ∧ success page = true ∧
                    build_bulk cfg (results page) = Done ops ∧
                    ops ≠ [] ∧
                    store_accepts w (S (S (awaits s))) = false ∧
                    batches (trace s') = batches (trace s) ++ [ops]
  | ConnectError | FileError | InvalidTime => False
  end.
Proof.
  intros Hrun. cbv zeta. split.
  { by rewrite <- (iteration_requests w cfg appID p s), Hrun. }
  revert Hrun. rewrite iteration_run.
  destruct (server w (awaits s) (page_request appID p)) as [|r] eqn:Hr.
  { intros [= <- <-]. simpl.
    by rewrite fetched_counts_app, batches_app, !app_nil_r. }
  unfold answered. case_bool_decide as H429; [done|].
  case_bool_decide as H200.
  { intros [= <- <-]. simpl.
    rewrite fetched_counts_app, batches_app, !app_nil_r. eauto 10. }
  assert (status r = 200) as Hst by (by destruct (decide (status r = 200))).
  rewrite M_bind_run. unfold json at 1, await, modify, throw.
  rewrite M_bind_run. simpl.
  destruct (body r) as [| |page] eqn:Hb; simpl.
  { intros [= <- <-]. simpl.
    rewrite fetched_counts_app, batches_app, !app_nil_r. eauto 10. }
  { intros [= <- <-]. simpl.
    rewrite fetched_counts_app, batches_app, !app_nil_r. eauto 10. }
  destruct (success page) eqn:Hs; simpl.
  2:{ intros [= <- <-]. simpl.
      rewrite fetched_counts_app, batches_app, !app_nil_r. eauto 10. }
  rewrite M_bind_run, pushToDB_run.
  destruct (build_bulk_returns cfg (results page)) as [[ops Hops]|[key Hkey]].
  - rewrite Hops. unfold executed, accepted. simpl.
    destruct ops as [|op ops].
    + apply build_bulk_empty in Hops. intros [= <- <-]. simpl.
      rewrite !fetched_counts_app, !batches_app. simpl.
      rewrite !app_nil_r. repeat split; try done. eauto 12.
    + destruct (store_accepts w (S (S (awaits s)))) eqn:Hacc; [done|].
      intros [= <- <-]. simpl.
      rewrite !fetched_counts_app, !batches_app. simpl.
      rewrite !app_nil_r. repeat split; try done.
      exists r, page, (op :: ops). repeat split; done.
  - rewrite Hkey. intros [= <- <-]. simpl.
    rewrite fetched_counts_app, batches_app, !app_nil_r. eauto 10.
Qed.

Lemma failing_pass_has_one_cause_witness :
  let w := calm_world (λ _ _, Replied {| status := 500; body := BodyEmpty |}) in
  let p := {| pageIndex := 3; total := 250; fetched := 200 |} in
  let s' := (iteration w readme_config 730 p (fresh 0)).2 in
  iteration w readme_config 730 p (fresh 0) = (Throw (StatusError 3 500), s') ∧
  requests (trace s') = [page_request 730 p] ∧
  collection s' = [].
Proof.
  intros w p s'.
  assert (iteration w readme_config 730 p (fresh 0)
            = (Throw (StatusError 3 500), s')) as Hrun by (by vm_compute).
  destruct (failing_pass_has_one_cause w readme_config 730 p (fresh 0) _ _ Hrun)
    as (Hreq & _ & Hkeep & _).
  split; [exact Hrun|]. split; [exact Hreq|].
  by apply Hkeep.
Defined.

(** X7.  When the server never answers 429 and every page it returns
    reports a total of at most [N], the loop of an identifier ends, by
    returning or by throwing, within max(1, N - fetched) passes, and
    sends at most as many requests: each pass that returns has stored a
    page of one item at least. *)
Theorem loop_ends_within_total
    (w : World) (cfg : Config) (appID : Z) (N : Z) (fuel : nat)
    (p : Progress) (s : Sys) :
  (∀ n req r, server w n req = Replied r →
     status r ≠ 429 ∧
     ∀ page, body r = BodyPage page → total_count page ≤ N) →
  (1 ≤ fuel)%nat →
  (Z.to_nat (N - fetched p) ≤ fuel)%nat →
  let run := do_while w cfg fuel appID p s in
  run.1 ≠ Diverge ∧
  (length (requests (trace run.2))
     ≤ length (requests (trace s)) + Nat.max 1 (Z.to_nat (N - fetched p)))%nat.
Proof.
  intros Hw. revert p s. induction fuel as [|fuel IH]; intros p s H1 HN; [lia|].
  simpl. rewrite M_bind_run.
  pose proof (iteration_returns w cfg appID p s) as Hret.
  pose proof (iteration_requests w cfg appID p s) as Hreq.
  destruct (iteration w cfg appID p s) as [[p'| |] s1] eqn:Hrun;
    simpl in *; [| |done].
  2:{ split; [done|]. rewrite Hreq, length_app. simpl. lia. }
  case_bool_decide as Htest; simpl.
  2:{ split; [done|]. rewrite Hreq, length_app. simpl. lia. }
  apply iteration_Done in Hrun as (r & Hr & Hcase).
  destruct (Hw _ _ _ Hr) as [H429 Hpage].
  destruct Hcase
    as [(? & _)|(_ & page & ops & Hb & _ & Hitems & _ & _ & -> & _)];
    [done|].
  pose proof (Hpage page Hb) as Htotal. simpl in Htest.
  assert (0 < length (results page))%nat.
  { destruct (results page); [done|simpl; lia]. }
  destruct (IH (advance p page) s1) as [Hend Hlen]; simpl; [lia|lia|].
  split; [done|]. rewrite Hreq, length_app in Hlen. simpl in *. lia.
Qed.

Lemma loop_ends_within_total_witness :
  let w := calm_world (λ _ _, page_reply 2 [ak47]) in
  let run := do_while w readme_config 2 730 init_progress (fresh 0) in
  run.1 = Done tt ∧ (length (requests (trace run.2)) ≤ 2)%nat.
Proof.
  intros w run.
  destruct (loop_ends_within_total w readme_config 730 2 2 init_progress
              (fresh 0)) as [_ Hlen].
  - intros n req r [= <-]. split; [done|]. by intros page [= <-].
  - lia.
  - simpl. lia.
  - split; [by vm_compute|exact Hlen].
Defined.
(** X8.  In every state at the head of the body of an identifier's loop,
    of what the loop has added to the trace since it was entered:
    [pageIndex] is one more than the number of pages logged as fetched
    (passes that met status 429 do not count); [fetched] is the count
    logged last, 0 before the first page, and is not negative; one batch
    was handed to the store per page logged; every request is for the
    identifier, asks for [PAGE_SIZE] items and starts at an offset
    between 0 and [fetched]; and the offsets of the requests never go
    back. *)
Theorem loop_head_bookkeeping
    (w : World) (cfg : Config) (appID : Z) (s0 : Sys) (p : Progress)
    (s : Sys) :
  loop_head w cfg appID s0 p s →
  ∃ t, trace s = trace s0 ++ t ∧
    pageIndex p = 1 + Z.of_nat (length (fetched_counts t)) ∧
    fetched p = default 0 (last (fetched_counts t)) ∧
    0 ≤ fetched p ∧
    length (batches t) = length (fetched_counts t) ∧
    Forall (λ r, req_appid r = appID ∧ req_count r = PAGE_SIZE ∧
                 0 ≤ req_start r ≤ fetched p) (requests t) ∧
    StronglySorted Z.le (req_start <$> requests t).
Proof.
  induction 1 as [|p s p' s' _ IH Hrun Htest].
  { exists []. rewrite app_nil_r. repeat split; try done; constructor. }
  destruct IH as (t & Ht & Hidx & Hfetched & Hpos & Hbatches & Hreqs & Hsorted).
  assert (∀ q, fetched p ≤ fetched q →
            Forall (λ r, req_appid r = appID ∧ req_count r = PAGE_SIZE ∧
                         0 ≤ req_start r ≤ fetched q)
                   (requests t ++ [page_request appID p]) ∧
            StronglySorted Z.le
              (req_start <$> requests t ++ [page_request appID p]))
    as Hnext.
  { intros q Hq. split.
    - apply Forall_app. split.
      + eapply Forall_impl; [exact Hreqs|]. simpl. intros r. lia.
      + constructor; [|constructor]. simpl. lia.
    - rewrite fmap_app. apply StronglySorted_app.
      split; [|split; [done|repeat constructor]].
      intros x1 x2 (r & -> & Hr)%list_elem_of_fmap ->%list_elem_of_singleton.
      rewrite Forall_forall in Hreqs. apply Hreqs in Hr. simpl. lia. }
  apply iteration_Done in Hrun as (r & Hr & Hcase).
  destruct Hcase
    as [(_ & -> & ->)|(_ & page & ops & _ & _ & _ & _ & _ & -> & ->)].
  - eexists (t ++ _). rewrite trace_throttled, Ht, <- app_assoc.
    split; [done|].
    rewrite fetched_counts_app, batches_app, requests_app. simpl.
    rewrite !app_nil_r. destruct (Hnext p) as [? ?]; [lia|]. done.
  - eexists (t ++ _). rewrite trace_stored, Ht, <- app_assoc.
    split; [done|].
    rewrite fetched_counts_app, batches_app, requests_app. simpl.
    rewrite !length_app, last_snoc. simpl.
    destruct (Hnext (advance p page)) as [? ?]; [simpl; lia|].
    repeat split; try done; lia.
Qed.

Lemma loop_head_bookkeeping_witness :
  let w := calm_world (λ _ _, page_reply 3 [ak47]) in
  let p1 := {| pageIndex := 2; total := 3; fetched := 1 |} in
  let p2 := {| pageIndex := 3; total := 3; fetched := 2 |} in
  let s1 := (iteration w readme_config 730 init_progress (fresh 0)).2 in
  let s2 := (iteration w readme_config 730 p1 s1).2 in
  loop_head w readme_config 730 (fresh 0) p2 s2 ∧
  ∃ t, trace s2 = t ∧ fetched_counts t = [1; 2] ∧
       req_start <$> requests t = [0; 1].
Proof.
  intros w p1 p2 s1 s2.
  assert (loop_head w readme_config 730 (fresh 0) p2 s2) as Hhead.
  { apply (head_again w readme_config 730 (fresh 0) p1 s1); [|by vm_compute|done].
    apply (head_again w readme_config 730 (fresh 0) init_progress (fresh 0));
      [constructor|by vm_compute|done]. }
  split; [exact Hhead|].
  destruct (loop_head_bookkeeping w readme_config 730 (fresh 0) p2 s2 Hhead)
    as (t & Ht & _).
  exists t. split; [exact Ht|]. simpl in Ht. subst t. split; by vm_compute.
Defined.

Section Grouped.
Context (w : World) (cfg : Config).

Lemma fetch_app_requests fuel appID s s' :
  fetch_app w cfg fuel appID s = (Done tt, s') →
  ∃ rest, requests (trace s')
            = requests (trace s) ++ first_request appID :: rest ∧
          Forall (λ r, req_appid r = appID) rest.
Proof.
  unfold fetch_app, log, emit, modify. rewrite !M_bind_run. simpl.
  destruct fuel as [|fuel]; [done|].
  destruct (do_while_trace w cfg fuel appID init_progress
              (add_event (Logged Info (FetchingPrices appID)) s))
    as (t & Ht & HP).
  destruct (do_while w cfg (S fuel) appID init_progress _) as [[[]| |] s1];
    [|done|done].
  intros [= <-]. simpl in *. exists (requests t).
  split; [|by apply requests_loop_events in HP].
  rewrite requests_app, Ht, !requests_app, requests_first. simpl.
  by rewrite !app_nil_r.
Qed.

End Grouped.

(** X9.  When the pass over the identifiers returns, the requests it has
    sent come in groups, one group per configured identifier, in the
    order of the configuration; the group of an identifier holds at
    least one request, starts with the request at offset 0, and holds
    requests for that identifier only. *)
Theorem pass_requests_grouped
    (w : World) (cfg : Config) (fuel : nat) (s s' : Sys) :
  fetchMarketData w cfg fuel s = (Done tt, s') →
  ∃ groups,
    requests (trace s') = requests (trace s) ++ concat groups ∧
    Forall2 (λ appID group,
               ∃ rest,
                 group = {| req_appid := appID; req_start := 0;
                            req_count := PAGE_SIZE |} :: rest ∧
                 Forall (λ r, req_appid r = appID) rest)
            (apps cfg) groups.
Proof.
  unfold fetchMarketData. generalize (apps cfg) as ids. intros ids. revert s.
  induction ids as [|appID ids IH]; intros s; simpl.
  { intros [= <-]. exists []. by rewrite app_nil_r. }
  rewrite M_bind_run.
  destruct (fetch_app w cfg fuel appID s) as [[[]| |] s1] eqn:Happ;
    [|done|done].
  intros Hrest. apply fetch_app_requests in Happ as (rest & Hreq & Hrest').
  apply IH in Hrest as (groups & Hreqs & Hgroups).
  exists ((first_request appID :: rest) :: groups). split.
  - rewrite Hreqs, Hreq. simpl. by rewrite <- app_assoc.
  - constructor; [|done]. by exists rest.
Qed.

Lemma pass_requests_grouped_witness :
  let w := calm_world (λ _ req,
    if bool_decide (req_appid req = 730) then page_reply 2 [ak47]
    else page_reply 1 [ak47]) in
  let cfg := {| updateInterval := 1800000; apps := [730; 570];
                properties := ["name"] |} in
  let s' := (fetchMarketData w cfg 5 (fresh 0)).2 in
  fetchMarketData w cfg 5 (fresh 0) = (Done tt, s') ∧
  ∃ groups, requests (trace s') = concat groups ∧ length groups = 2%nat.
Proof.
  intros w cfg s'.
  assert (fetchMarketData w cfg 5 (fresh 0) = (Done tt, s')) as Hrun
    by (by vm_compute).
  split; [exact Hrun|].
  destruct (pass_requests_grouped w cfg 5 (fresh 0) s' Hrun)
    as (groups & Hreqs & Hgroups).
  exists groups. split; [exact Hreqs|].
  by apply Forall2_length in Hgroups.
Defined.
(** ** Timers, startup and restart *)

Section Timers.
Context (w : World) (cfg : Config).

Lemma fetchMarketData_timers fuel s :
  timers (trace (fetchMarketData w cfg fuel s).2) = timers (trace s).
Proof.
  destruct (events_for_apps w cfg (λ _, True) (loop_event (λ _, True)))
    with (fuel := fuel) (ids := apps cfg) (s := s) as (t & Ht & HP);
    try done.
  { by apply Forall_true. }
  unfold fetchMarketData. rewrite Ht, timers_app.
  by rewrite (timers_loop_events _ _ HP), app_nil_r.
Qed.

Lemma fetchMarketData_requests_none fuel s :
  apps cfg = [] →
  fetchMarketData w cfg fuel s = (Done tt, s).
Proof. unfold fetchMarketData. by intros ->. Qed.

End Timers.

(** X10.  A cycle never throws.  When it returns it has armed exactly one
    timer, with the configured interval, as the last thing it did,
    whether the pass over the identifiers threw or not; the pass itself
    arms none. *)
Theorem cycle_arms_one_timer
    (w : World) (cfg : Config) (fuel : nat) (s : Sys) :
  let run := updateMarketListingsData w cfg fuel s in
  match run.1 with
  | Done _ =>
      timers (trace run.2) = timers (trace s) ++ [updateInterval cfg] ∧
      last (trace run.2) = Some (Armed (updateInterval cfg))
  | Throw _ => False
  | Diverge => timers (trace run.2) = timers (trace s)
  end.
Proof.
  pose proof (fetchMarketData_timers w cfg fuel (cycle_started s)) as Hpass.
  destruct (fetchMarketData w cfg fuel (cycle_started s)) as [[[]| |] s2]
    eqn:Hrun; simpl in Hpass.
  - rewrite (cycle_run_completed _ _ _ _ _ Hrun). unfold cycle_completed.
    rewrite timers_app, app_nil_r in Hpass.
    destruct (fs_writes w (awaits s2)); simpl;
      rewrite last_snoc, !timers_app, Hpass; simpl;
      by rewrite !app_nil_r.
  - rewrite (cycle_run_failed _ _ _ _ _ _ Hrun). simpl.
    rewrite timers_app, app_nil_r in Hpass.
    rewrite last_snoc, !timers_app, Hpass. simpl. by rewrite !app_nil_r.
  - rewrite (cycle_run_diverge _ _ _ _ _ Hrun). simpl.
    by rewrite timers_app, app_nil_r in Hpass.
Qed.

Section Boot.
Context (w : World) (cfg : Config).

Lemma first_run_never_throws fuel s e s' :
  first_run w cfg fuel s ≠ (Throw e, s').
Proof.
  rewrite first_run_unfold. case_bool_decide; [|done].
  apply cycle_never_throws.
Qed.

(** [start] by the outcome of reading the watermark and connecting. *)
Lemma start_run fuel s :
  start w cfg fuel s =
    match (readLastUpdateTime w;; connectToDB w) s with
    | (Done _, s1) => first_run w cfg fuel s1
    | (Throw e, s1) =>
        (Done tt, add_event (Logged Error (ErrorText e))
                    (add_event (Logged Error ErrorOnStartup) s1))
    | (Diverge, s1) => (Diverge, s1)
    end.
Proof.
  unfold start, try_catch. rewrite !M_bind_run.
  destruct (readLastUpdateTime w s) as [[[]| |] s1]; [|done|done].
  rewrite !M_bind_run.
  destruct (connectToDB w s1) as [[[]| |] s2]; [|done|done].
  pose proof (first_run_never_throws fuel s2) as Hnever.
  destruct (first_run w cfg fuel s2) as [[[]|e|] s3]; [done| |done].
  by destruct (Hnever e s3).
Qed.

End Boot.

(** X11.  With a watermark file that can be read when it is there, the
    startup fails in three cases only: the file is not there and cannot
    be written (the write of [readLastUpdateTime]
    is not guarded, unlike that of [writeLastUpdateTime]); the file
    holds no valid time, NaN or a number other than 0 that is beyond
    8.64e15 ms from the epoch, so that the log line of line 283 throws;
    or the connection to the database fails.  [start] then returns
    after logging the error: it sends no request, arms no timer, so that
    no cycle ever runs, and leaves the collection alone.  When the file
    is the cause, the connection is not even tried. *)
Theorem startup_fails_on_file_or_connection
    (w : World) (cfg : Config) (fuel : nat) (s : Sys) :
  let boot := (readLastUpdateTime w;; connectToDB w) s in
  let run := start w cfg fuel s in
  (boot.1 = Done tt ∨ boot.1 = Throw FileError ∨
   boot.1 = Throw InvalidTime ∨ boot.1 = Throw ConnectError) ∧
  (boot.1 = Throw FileError ↔
     update_file s = None ∧ fs_writes w (awaits s) = false) ∧
  (boot.1 = Throw InvalidTime ↔
     update_file s = Some NotANumber ∨
     ∃ t, update_file s = Some (Number t) ∧ t ≠ 0 ∧ valid_time t = false) ∧
  (boot.1 = Throw ConnectError ↔
     boot.1 ≠ Throw FileError ∧ boot.1 ≠ Throw InvalidTime ∧
     db_connects w = false) ∧
  (∀ e, boot.1 = Throw e →
     run = (Done tt, add_event (Logged Error (ErrorText e))
                       (add_event (Logged Error ErrorOnStartup) boot.2)) ∧
     requests (trace run.2) = requests (trace s) ∧
     timers (trace run.2) = timers (trace s) ∧
     batches (trace run.2) = batches (trace s) ∧
     collection run.2 = collection s ∧
     (e ≠ ConnectError →
        awaits run.2 = awaits s ∧
        Logged Info ConnectingToDatabase
          ∉ drop (length (trace s)) (trace run.2))).
Proof.
  intros boot run. unfold run. rewrite start_run. fold boot. clear run.
  revert boot.
  unfold readLastUpdateTime, connectToDB, writeFileSync, log, emit, await,
    throw, ask, modify, mbind, M_bind; simpl.
  destruct (update_file s) as [[t|]|]; simpl;
    [case_bool_decide; simpl;
       [|destruct (valid_time t) eqn:Hvalid; simpl]
    |
    |destruct (fs_writes w (awaits s)) eqn:Hfs; simpl];
    try (destruct (db_connects w) eqn:Hdb; simpl).
  all: repeat split; try (by auto); try (by intros [? ?]);
    try (by intros [=]); try (by intros e [=]);
    try (by intros [?|(? & ? & ? & ?)]; simplify_eq; congruence).
  all: try (by intros _; right; eauto).
  all: try (by intros (? & ? & ?)).
  all: try match goal with H : Throw _ = Throw _ |- _ => injection H as <- end.
  all: try done.
  all: rewrite ?requests_app, ?timers_app, ?batches_app; simpl;
    rewrite ?app_nil_r; try done.
  all: rewrite <- !app_assoc, drop_app_length; simpl.
  all: intros Hin; repeat (apply elem_of_cons in Hin as [Hin|Hin]; [done|]).
  all: by apply elem_of_nil in Hin.
Qed.
Lemma startup_fails_on_file_or_connection_witness :
  let w := calm_world (λ _ _, page_reply 1 [ak47]) in
  let s := set_update_file (Some (Number 8640000000000001)) (fresh 1800000) in
  let run := start w readme_config 5 s in
  run.1 = Done tt ∧
  requests (trace run.2) = [] ∧
  timers (trace run.2) = [] ∧
  last (trace run.2) = Some (Logged Error (ErrorText InvalidTime)).
Proof.
  intros w s run.
  destruct (startup_fails_on_file_or_connection w readme_config 5 s)
    as (_ & _ & _ & _ & Hfail).
  destruct (Hfail InvalidTime) as (Hrun & Hreq & Htimers & _);
    [by vm_compute|].
  fold run in Hrun, Hreq, Htimers. split; [by rewrite Hrun|].
  split; [exact Hreq|]. split; [exact Htimers|]. by rewrite Hrun.
Defined.

Section Restart.
Context (w : World) (cfg : Config).

(** With a time in the watermark file and the database reachable, the
    startup loads the file. *)
Lemma boot_loads_file s t :
  update_file s = Some (Number t) →
  valid_time t = true →
  db_connects w = true →
  ∃ s1, (readLastUpdateTime w;; connectToDB w) s = (Done tt, s1) ∧
        lastUpdate s1 = t ∧
        clock s1 = clock s + Z.of_N (elapse w (awaits s)) ∧
        requests (trace s1) = requests (trace s).
Proof.
  intros Hfile Hvalid Hdb.
  unfold readLastUpdateTime, connectToDB, writeFileSync, log, emit, await,
    throw, ask, modify, mbind, M_bind; simpl.
  rewrite Hfile. simpl. case_bool_decide; simpl; rewrite ?Hvalid, Hdb; simpl.
  all: eexists; split; [done|]; simpl.
  all: rewrite !requests_app; simpl; rewrite !app_nil_r.
  all: repeat split; try done; lia.
Qed.

Lemma fetchMarketData_keeps_file fuel s :
  update_file (fetchMarketData w cfg fuel s).2 = update_file s.
Proof. apply (steady_for_apps w cfg fuel (apps cfg) s). Qed.

End Restart.

(** X12.  The watermark across a restart.  After a cycle whose pass over
    the identifiers returned, at a time that is a date, the watermark of
    the process is the time at which the pass ended.  When the write of
    the file succeeded, a process started later on that file, with the
    database reachable, loads that time; if less than the interval has
    gone by since, it sends no request and arms the timer for the
    remainder.  When the write failed, the file is as it was before the
    cycle, so that a restart loads the older watermark. *)
Theorem watermark_survives_restart
    (w w' : World) (cfg : Config) (fuel : nat) (s s2 s0 : Sys) :
  fetchMarketData w cfg fuel (cycle_started s) = (Done tt, s2) →
  valid_time (clock s2) = true →
  let s3 := (updateMarketListingsData w cfg fuel s).2 in
  update_file s0 = update_file s3 →
  db_connects w' = true →
  lastUpdate s3 = clock s2 ∧
  (fs_writes w (awaits s2) = true →
     ∃ s1, (readLastUpdateTime w';; connectToDB w') s0 = (Done tt, s1) ∧
       lastUpdate s1 = clock s2 ∧
       (clock s1 - clock s2 < updateInterval cfg →
          start w' cfg fuel s0 =
            (Done tt, add_event
                        (Armed (updateInterval cfg - (clock s1 - clock s2)))
                        s1) ∧
          requests (trace (start w' cfg fuel s0).2) = requests (trace s0))) ∧
  (fs_writes w (awaits s2) = false →
     update_file s0 = update_file s ∧
     ∀ s1, (readLastUpdateTime w';; connectToDB w') s0 = (Done tt, s1) →
           lastUpdate s1 = file_watermark (update_file s)).
Proof.
  intros Hpass Hvalid s3 Hfile Hdb.
  pose proof (fetchMarketData_keeps_file w cfg fuel (cycle_started s)) as Hkeep.
  rewrite Hpass in Hkeep. simpl in Hkeep.
  unfold s3 in *. clear s3.
  rewrite (cycle_run_completed _ _ _ _ _ Hpass) in *.
  unfold cycle_completed in *.
  destruct (fs_writes w (awaits s2)) eqn:Hok; simpl in *.
  - split; [done|]. split; [|done]. intros _.
    destruct (boot_loads_file w' s0 (clock s2) Hfile Hvalid Hdb)
      as (s1 & Hboot & Hloaded & _ & Hreq).
    exists s1. split; [done|]. split; [done|]. intros Hsoon.
    rewrite start_run, Hboot, first_run_unfold, Hloaded.
    rewrite bool_decide_eq_false_2 by lia. split; [done|].
    simpl. by rewrite requests_app, Hreq, app_nil_r.
  - split; [done|]. split; [done|]. intros _.
    rewrite Hkeep in Hfile. split; [done|].
    intros s1 Hboot. by rewrite (loaded_watermark _ _ _ Hboot), Hfile.
Qed.

Lemma watermark_survives_restart_witness :
  let w := {| server := λ _ _, page_reply 1 [ak47];
              store_accepts := λ _, true; fs_writes := λ _, true;
              db_connects := true; elapse := λ _, 250%N |} in
  let s3 := (updateMarketListingsData w readme_config 5 (fresh 1800000)).2 in
  let s0 := set_update_file (update_file s3) (fresh 2000000) in
  lastUpdate s3 = 1800750 ∧
  update_file s3 = Some (Number 1800750) ∧
  start w readme_config 5 s0 =
    (Done tt, add_event (Armed 1600500)
                ((readLastUpdateTime w;; connectToDB w) s0).2) ∧
  requests (trace (start w readme_config 5 s0).2) = [].
Proof.
  intros w s3 s0.
  set (s2 := (fetchMarketData w readme_config 5
                (cycle_started (fresh 1800000))).2).
  destruct (watermark_survives_restart w w readme_config 5 (fresh 1800000)
              s2 s0) as (Hmark & Hgood & _);
    [by vm_compute|by vm_compute|by vm_compute|reflexivity|].
  destruct Hgood as (s1 & Hboot & Hloaded & Hsoon); [by vm_compute|].
  assert (s1 = ((readLastUpdateTime w;; connectToDB w) s0).2) as ->
    by (by rewrite Hboot).
  destruct Hsoon as [Hstart Hreq]; [by vm_compute|].
  split; [by vm_compute|]. split; [by vm_compute|].
  split; [|exact Hreq]. rewrite Hstart. by vm_compute.
Defined.

(** ** The whitelist *)

Lemma set_props_whitelist cfg cfg' item props toSet :
  (∀ f, f ∈ props → (f ∈ properties cfg ↔ f ∈ properties cfg')) →
  set_props cfg item props toSet = set_props cfg' item props toSet.
Proof.
  revert toSet. induction props as [|prop props IH]; intros toSet Hsame; [done|].
  simpl.
  assert (includes (properties cfg) prop = includes (properties cfg') prop)
    as <-.
  { unfold includes. apply bool_decide_ext, Hsame, list_elem_of_here. }
  destruct (includes (properties cfg) prop).
  - destruct (resolve item prop); simpl; [|done|done].
    apply IH. intros f Hf. by apply Hsame, list_elem_of_further.
  - apply IH. intros f Hf. by apply Hsame, list_elem_of_further.
Qed.

(** X13.  Of [config.properties], only which names of [ITEM_PROPERTIES]
    it includes matters: two configurations that include the same names
    of [ITEM_PROPERTIES] make [pushToDB] build the same batch, or throw
    the same error, and run alike.  Other names in the whitelist (also
    [sell_price] and [hash_name]), the order of the names and names
    given twice change nothing. *)
Theorem whitelist_matters_on_listed_names
    (w : World) (cfg cfg' : Config) (items : list value) (s : Sys) :
  (∀ f, f ∈ ITEM_PROPERTIES →
        (f ∈ properties cfg ↔ f ∈ properties cfg')) →
  build_bulk cfg items = build_bulk cfg' items ∧
  pushToDB w cfg items s = pushToDB w cfg' items s.
Proof.
  intros Hsame.
  assert (∀ item, build_op cfg item = build_op cfg' item) as Hop.
  { intros item. unfold build_op, build_toSet.
    destruct (get_prop item "sell_price") as [price| |]; [|done|done].
    rewrite !outcome_Done_bind.
    by rewrite (set_props_whitelist cfg cfg' item ITEM_PROPERTIES _ Hsame). }
  assert (build_bulk cfg items = build_bulk cfg' items) as Hbulk.
  { induction items as [|item items IH]; [done|].
    cbn [build_bulk]. by rewrite Hop, IH. }
  split; [done|]. by rewrite !pushToDB_run, Hbulk.
Qed.

Lemma whitelist_matters_on_listed_names_witness :
  let w := calm_world (λ _ _, too_many_requests) in
  let cfg := {| updateInterval := 1800000; apps := [730];
                properties := ["name"; "classid"] |} in
  let cfg' := {| updateInterval := 60000; apps := [570];
                 properties := ["hash_name"; "classid"; "market_name";
                                "name"; "classid"; "sell_price"] |} in
  build_bulk cfg [ak47] = build_bulk cfg' [ak47] ∧
  pushToDB w cfg [ak47] (fresh 0) = pushToDB w cfg' [ak47] (fresh 0).
Proof.
  intros w cfg cfg'.
  apply (whitelist_matters_on_listed_names w cfg cfg' [ak47] (fresh 0)).
  intros f Hf. unfold ITEM_PROPERTIES in Hf.
  repeat (apply elem_of_cons in Hf as [->|Hf];
          [apply (bool_decide_unpack _); by vm_compute|]).
  by apply elem_of_nil in Hf.
Defined.
